(** * The retrieval-augmented context pipeline of the PDF chat server

    A shallow embedding of the chunker ([routes/upload.js]), of the vector
    service ([services/vector.js]) and of the context handling of the chat
    route ([routes/chat.js]), followed by the properties of the pipeline.

    Conventions.
    - A JavaScript number that the code uses as a count or an index is a [Z];
      the numbers inside embedding vectors and scores are rationals ([Q]).
    - A JavaScript string is a [string]; one [ascii] stands for one code unit.
    - A function that can throw returns a [Result]; a function that talks to
      the network threads a [World] that records every request issued.
    - The [while] loop of the chunker takes fuel: [None] means that the loop
      is still running when the fuel is used up. *)

From Stdlib Require Import ZArith QArith Lia Ascii String List.
From Stdlib Require Qcanon.
From Stdlib Require Import Sorted Permutation.
From stdpp Require Import gmap strings list fin_maps.

Local Open Scope Z_scope.

(** ** JavaScript values and helpers *)

Module Js.

(** Values that travel as JSON or sit in object literals. *)
#[warnings="-register-all"] Inductive Json : Type :=
  | JUndef
  | JNull
  | JBool (b : bool)
  | JNum (q : Q)
  | JStr (s : string)
  | JArr (l : list Json)
  | JObj (o : gmap string Json).

Inductive Exn : Type :=
  | Error (msg : string)
  | TypeError (msg : string)
  | LibraryError (origin : string).

Inductive Result (A : Type) : Type :=
  | Ok (a : A)
  | Throw (e : Exn).
Arguments Ok {A} a.
Arguments Throw {A} e.

(** [Array.isArray(v)] *)
Definition isArray (v : Json) : bool :=
  match v with JArr _ => true | _ => false end.

(** Truthiness, as used by [||] and [!]. *)
Definition truthy (v : Json) : bool :=
  match v with
  | JUndef | JNull => false
  | JBool b => b
  | JNum q => negb (Qeq_bool q 0)
  | JStr s => negb (String.eqb s "")
  | JArr _ | JObj _ => true
  end.

(** [a || b] *)
Definition or_else (a b : Json) : Json := if truthy a then a else b.

(** [o?.k] and [o.k] on a value that is known not to be null or undefined:
    a missing property, or a property of a primitive, is [undefined]. *)
Definition get (k : string) (v : Json) : Json :=
  match v with
  | JObj o => default JUndef (o !! k)
  | _ => JUndef
  end.

(** [a[0]] on an array. *)
Definition first (v : Json) : Json :=
  match v with
  | JArr (x :: _) => x
  | _ => JUndef
  end.

(** Relative index of [Array.prototype.slice] and [String.prototype.slice]:
    a negative index counts from the end, and the result is clamped to
    [0..len]. *)
Definition rel_index (i len : Z) : Z :=
  if i <? 0 then Z.max (len + i) 0 else Z.min i len.

(** [l.slice(s, e)] *)
Definition slice {A} (l : list A) (s e : Z) : list A :=
  let len := Z.of_nat (length l) in
  let k := rel_index s len in
  let f := rel_index e len in
  take (Z.to_nat (f - k)) (drop (Z.to_nat k) l).

(** [l.slice(s)] *)
Definition slice_from {A} (l : list A) (s : Z) : list A :=
  drop (Z.to_nat (rel_index s (Z.of_nat (length l)))) l.

(** [s.slice(a, b)] on strings. *)
Definition str_slice (s : string) (a b : Z) : string :=
  string_of_list_ascii (slice (list_ascii_of_string s) a b).

(** [l.join(sep)] on an array of strings. *)
Fixpoint join (sep : string) (l : list string) : string :=
  match l with
  | [] => ""
  | [x] => x
  | x :: rest => x +:+ sep +:+ join sep rest
  end.

(** [s.split(re)] for a pattern [re] that matches a non-empty run of the
    characters picked by [sep]: the pieces between the runs, in order. [cur]
    holds the piece being read, reversed; [in_run] says that the previous
    character belonged to a run. *)
Fixpoint split_runs (sep : ascii -> bool) (cur : list ascii) (in_run : bool)
    (s : list ascii) : list (list ascii) :=
  match s with
  | [] => [rev cur]
  | c :: rest =>
      if sep c then
        if in_run then split_runs sep cur true rest
        else rev cur :: split_runs sep [] true rest
      else split_runs sep (c :: cur) false rest
  end.

Definition split_on (sep : ascii -> bool) (s : string) : list string :=
  map string_of_list_ascii (split_runs sep [] false (list_ascii_of_string s)).

(** White space and line terminators among the first 256 code units. *)
Definition is_space (c : ascii) : bool :=
  let n := N_of_ascii c in
  (((9 <=? n) && (n <=? 13)) || (n =? 32) || (n =? 160))%N%bool.

Fixpoint drop_spaces (s : list ascii) : list ascii :=
  match s with
  | c :: rest => if is_space c then drop_spaces rest else s
  | [] => []
  end.

(** [s.trim()] *)
Definition trim (s : string) : string :=
  string_of_list_ascii
    (rev (drop_spaces (rev (drop_spaces (list_ascii_of_string s))))).

(** [s.toLowerCase()] on the first 256 code units. *)
Definition lower_char (c : ascii) : ascii :=
  let n := N_of_ascii c in
  if (((65 <=? n) && (n <=? 90))
      || ((192 <=? n) && (n <=? 222) && negb (n =? 215)))%N%bool
  then ascii_of_N (n + 32) else c.

Definition toLowerCase (s : string) : string :=
  string_of_list_ascii (map lower_char (list_ascii_of_string s)).

Fixpoint starts_with (p s : list ascii) : bool :=
  match p, s with
  | [], _ => true
  | a :: p', b :: s' => (Ascii.eqb a b && starts_with p' s')%bool
  | _ :: _, [] => false
  end.

Fixpoint occurs_in (p s : list ascii) : bool :=
  (starts_with p s ||
   match s with
   | [] => false
   | _ :: s' => occurs_in p s'
   end)%bool.

(** [s.includes(p)] *)
Definition includes (s p : string) : bool :=
  occurs_in (list_ascii_of_string p) (list_ascii_of_string s).

End Js.

(** ** The token chunker ([routes/upload.js], [chunkTextByTokens]) *)

Module Upload.
Import Js.

(** What [encoder.decode] hands back: a string, or the bytes of one. *)
Inductive Decoded : Type :=
  | DecStr (s : string)
  | DecBytes (b : list Byte.byte).

(** The tokenizer object returned by [encoding_for_model]. *)
Record Encoder : Type := {
  encode : string -> Result (list Z);
  decode : list Z -> Result Decoded
}.

(** The [opts] argument; [None] is an absent property. *)
Record ChunkOpts : Type := {
  chunkTokens : option Z;
  overlapTokens : option Z;
  model : option string
}.

(** The default value of the [opts] parameter. *)
Definition default_opts : ChunkOpts :=
  {| chunkTokens := Some 2000; overlapTokens := Some 200;
     model := Some "gpt-3.5-turbo" |}.

(** The [text] of a chunk and the argument of [getEmbedding]: a string or an
    array of strings. *)
Inductive Text : Type :=
  | TStr (s : string)
  | TArr (l : list string).

(** An element of the returned array: [{ text: [text], page: null, chunkIndex }];
    [page = None] is [null]. *)
Record Chunk : Type := {
  text : Text;
  page : option Z;
  chunkIndex : Z
}.

(** [n || d] on an optional number. *)
Definition num_or (n : option Z) (d : Z) : Z :=
  match n with
  | None => d
  | Some v => if v =? 0 then d else v
  end.

(** [s || d] on an optional string. *)
Definition str_or (s : option string) (d : string) : string :=
  match s with
  | None => d
  | Some v => if String.eqb v "" then d else v
  end.

Definition chunkSize_of (opts : ChunkOpts) : Z :=
  Z.max 1 (num_or (chunkTokens opts) 2000).

Definition overlap_of (opts : ChunkOpts) : Z :=
  Z.max 0 (num_or (overlapTokens opts) 0).

(** The variables of the loop. *)
Record LoopState : Type := {
  start : Z;
  nextIndex : Z;
  chunks : list Chunk
}.

Inductive Step : Type :=
  | Break (cs : list Chunk)
  | Continue (st : LoopState).

Section Chunker.

(** [encoding_for_model] of the tokenizer package and the UTF-8
    [TextDecoder], which replaces malformed input and does not throw. *)
Variable encoding_for_model : string -> Result Encoder.
Variable utf8_decode : list Byte.byte -> string.

(** The string taken from what [decode] returned. *)
Definition text_of (d : Decoded) : string :=
  match d with
  | DecStr s => s
  | DecBytes b => utf8_decode b
  end.

(** One pass through the body of the [while] loop, entered with
    [start < tokens.length]. *)
Definition loop_body (enc : Encoder) (tokens : list Z)
    (chunkSize overlap : Z) (st : LoopState) : Result Step :=
  let len := Z.of_nat (length tokens) in
  let end_ := Z.min (start st + chunkSize) len in
  match decode enc (slice tokens (start st) end_) with
  | Throw e => Throw e
  | Ok decoded =>
      let c := {| text := TArr [text_of decoded];
                  page := None;
                  chunkIndex := nextIndex st |} in
      let cs := chunks st ++ [c] in
      if end_ =? len then Ok (Break cs)
      else
        let s1 := end_ - overlap in
        let s2 := if s1 <? 0 then 0 else s1 in
        Ok (Continue {| start := s2; nextIndex := nextIndex st + 1;
                        chunks := cs |})
  end.

(** The [while (start < tokens.length)] loop. *)
Fixpoint chunk_loop (fuel : nat) (enc : Encoder) (tokens : list Z)
    (chunkSize overlap : Z) (st : LoopState)
    : option (Result (list Chunk)) :=
  match fuel with
  | O => None
  | S fuel' =>
      if start st <? Z.of_nat (length tokens) then
        match loop_body enc tokens chunkSize overlap st with
        | Throw e => Some (Throw e)
        | Ok (Break cs) => Some (Ok cs)
        | Ok (Continue st') =>
            chunk_loop fuel' enc tokens chunkSize overlap st'
        end
      else Some (Ok (chunks st))
  end.

Definition init_state : LoopState :=
  {| start := 0; nextIndex := 0; chunks := [] |}.

(** [chunkTextByTokens(rawText, opts)]. The [finally] block only frees the
    encoder. [rawText = None] is an absent text. *)
Definition chunkTextByTokens (fuel : nat) (rawText : option string)
    (opts : ChunkOpts) : option (Result (list Chunk)) :=
  match encoding_for_model (str_or (model opts) "gpt-3.5-turbo") with
  | Throw e => Some (Throw e)
  | Ok enc =>
      match encode enc (str_or rawText "") with
      | Throw e => Some (Throw e)
      | Ok tokens =>
          chunk_loop fuel enc tokens (chunkSize_of opts) (overlap_of opts)
            init_state
      end
  end.

(** What every element of the result looks like: at position [i], the
    one-element array holding the text decoded from a window of the
    tokens, no page, and index [i]. *)
Definition chunk_shape (enc : Encoder) (tokens : list Z) (cs : list Chunk)
    : Prop :=
  forall (i : nat) c, cs !! i = Some c ->
    (exists a b d, decode enc (slice tokens a b) = Ok d /\
                   text c = TArr [text_of d]) /\
    page c = None /\
    chunkIndex c = Z.of_nat i.

End Chunker.

(** A tokenizer whose [decode] always answers. *)
Definition decodes (enc : Encoder) : Prop :=
  forall ts, exists d, decode enc ts = Ok d.

(** The count that the specification gives for [N] tokens, windows of [C]
    tokens and an overlap of [O]: [ceil(max(N - O, 0) / (C - O))]. *)
Definition ceil_div (a b : Z) : Z := (a + b - 1) / b.

Definition expected_chunks (N C O : Z) : Z :=
  ceil_div (Z.max (N - O) 0) (C - O).

(** The number of passes still to make from position [s]. *)
Definition passes_from (N C O s : Z) : Z :=
  Z.max 1 (ceil_div (N - s - O) (C - O)).

End Upload.

(** ** The vector service ([services/vector.js]) *)

Module Vector.
Import Js Upload.

(** A point of the collection: [{ id, vector, payload }]. *)
Record Point : Type := {
  id : string;
  vector : Json;
  payload : gmap string Json
}.

(** One condition of a filter: [{ key, match: { value } }]. *)
Record Condition : Type := {
  key : string;
  match_value : Json
}.

(** The body of a search request: [{ vector, limit, filter: { must } }]. *)
Record SearchRequest : Type := {
  query : Json;
  limit : Z;
  must : list Condition
}.

(** An element of a search response: [{ id, score, payload }]. *)
Record SearchResult : Type := {
  res_id : string;
  score : Q;
  res_payload : gmap string Json
}.

(** A collection of the vector database. *)
Record Collection : Type := {
  dimension : Z;
  points : list Point
}.

(** The response object of the HTTP client, as far as the code looks at it:
    its [data], and whether [JSON.stringify] can print the whole object.
    [JSON.stringify] throws a [TypeError] on an object that holds a cycle,
    as a response object that keeps its request does. *)
Record Response : Type := {
  data : Json;
  printable : bool
}.

(** Every request that leaves the process, most recent first. *)
Inductive Event : Type :=
  | EmbedCall (input : list string)
  | EmbeddingsCall (prompt : string)
  | UuidCall
  | GetCollections
  | CreateCollection (name : string) (size : Json)
  | Upsert (name : string) (pts : list Point)
  | Search (name : string) (req : SearchRequest).

Record World : Type := {
  trace : list Event;
  client : bool;
  db : gmap string Collection
}.

Definition log (e : Event) (w : World) : World :=
  {| trace := e :: trace w; client := client w; db := db w |}.

Definition set_db (d : gmap string Collection) (w : World) : World :=
  {| trace := trace w; client := client w; db := d |}.

(** The points held under a collection name; none when there is no such
    collection. *)
Definition points_of (w : World) (name : string) : list Point :=
  match db w !! name with
  | Some c => points c
  | None => []
  end.

(** Computations that may throw and that act on the world. *)
Definition M (A : Type) : Type := World -> Result A * World.

Definition ret {A} (a : A) : M A := fun w => (Ok a, w).
Definition throw {A} (e : Exn) : M A := fun w => (Throw e, w).
Definition bind {A B} (c : M A) (k : A -> M B) : M B :=
  fun w =>
    match c w with
    | (Ok a, w1) => k a w1
    | (Throw e, w1) => (Throw e, w1)
    end.
(** [try { c } catch (e) { h }] *)
Definition try_catch {A} (c : M A) (h : Exn -> M A) : M A :=
  fun w =>
    match c w with
    | (Ok a, w1) => (Ok a, w1)
    | (Throw e, w1) => h e w1
    end.

Notation "x <- c ;; k" := (bind c (fun x => k))
  (at level 100, c at next level, right associativity).
Notation "c ;;; k" := (bind c (fun _ => k))
  (at level 100, right associativity).

Definition lift {A} (r : Result A) : M A := fun w => (r, w).

Definition invalid_embedding : Exn :=
  Error "Invalid embedding response from Ollama".

(** [Array.isArray(text) ? text : [String(text || '')]] *)
Definition inputArray (t : Text) : list string :=
  match t with
  | TArr l => l
  | TStr s => [s]
  end.

(** [String(text || '')]: an array is truthy and prints as its elements
    joined by commas. *)
Definition prompt_of (t : Text) : string :=
  match t with
  | TStr s => s
  | TArr l => join "," l
  end.

(** The three shapes looked for in a response body, in this order:
    [data.embedding], [data.embeddings[0]], [data.data.embeddings[0]]. *)
Definition probe (body : Json) : option Json :=
  if isArray (get "embedding" body) then Some (get "embedding" body)
  else if isArray (get "embeddings" body)
  then Some (first (get "embeddings" body))
  else if isArray (get "embeddings" (get "data" body))
  then Some (first (get "embeddings" (get "data" body)))
  else None.

(** [v.length] *)
Definition js_length (v : Json) : Result Json :=
  match v with
  | JUndef | JNull =>
      Throw (TypeError "Cannot read properties of undefined (reading 'length')")
  | JArr l => Ok (JNum (inject_Z (Z.of_nat (length l))))
  | JStr s => Ok (JNum (inject_Z (Z.of_nat (String.length s))))
  | JObj o => Ok (default JUndef (o !! "length"))
  | JBool _ | JNum _ => Ok JUndef
  end.

(** The payload value of a chunk text. *)
Definition text_json (t : Text) : Json :=
  match t with
  | TStr s => JStr s
  | TArr l => JArr (map JStr l)
  end.

(** [chunk.page || null] *)
Definition page_json (p : option Z) : Json :=
  match p with
  | None => JNull
  | Some n => if n =? 0 then JNull else JNum (inject_Z n)
  end.

(** [{ documentId, text: chunk.text, page: chunk.page || null,
       chunkIndex: chunk.chunkIndex, ...baseMetadata }]:
    a key of [baseMetadata] replaces the field written before it. *)
Definition make_payload (documentId : string) (chunk : Chunk)
    (baseMetadata : gmap string Json) : gmap string Json :=
  baseMetadata ∪
  (<["documentId" := JStr documentId]>
   (<["text" := text_json (text chunk)]>
    (<["page" := page_json (page chunk)]>
     (<["chunkIndex" := JNum (inject_Z (chunkIndex chunk))]> ∅)))).

(** *** The vector database

    The database is a service outside the repository. What follows is the
    part of it that the code relies on, modelled from the specification. *)

(** Modelled from the spec: the vector database; the size of a collection
    is a positive whole number. *)
Definition dimension_of (size : Json) : option Z :=
  match size with
  | JNum q =>
      let r := Qred q in
      if (Pos.eqb (Qden r) 1 && (0 <? Qnum r))%bool then Some (Qnum r)
      else None
  | _ => None
  end.

(** Modelled from the spec: the vector database; a vector fits a collection
    when it is an array of numbers of the dimension of the collection. *)
Definition is_number (v : Json) : bool :=
  match v with JNum _ => true | _ => false end.

Definition valid_vector (dim : Z) (v : Json) : bool :=
  match v with
  | JArr l => ((Z.of_nat (length l) =? dim) && forallb is_number l)%bool
  | _ => false
  end.

(** Modelled from the spec: the vector database; an upserted point replaces
    the stored point of the same id, or is added. *)
Definition upsert_point (l : list Point) (p : Point) : list Point :=
  if existsb (fun q => String.eqb (id q) (id p)) l
  then map (fun q => if String.eqb (id q) (id p) then p else q) l
  else l ++ [p].

(** Modelled from the spec: the vector database; [match: { value }] holds
    of a payload value that equals the value asked for. *)
Definition value_matches (expected actual : Json) : bool :=
  match expected, actual with
  | JStr a, JStr b => String.eqb a b
  | JNum a, JNum b => Qeq_bool a b
  | JBool a, JBool b => Bool.eqb a b
  | _, _ => false
  end.

(** Modelled from the spec: the vector database; a point passes
    [filter: { must }] when its payload has, under the key of every
    condition, a value that matches. *)
Definition satisfies (conds : list Condition) (p : Point) : bool :=
  forallb (fun c =>
             match payload p !! key c with
             | Some v => value_matches (match_value c) v
             | None => false
             end) conds.

(** Modelled from the spec: the vector database; results are ranked by
    descending similarity. *)
Fixpoint insert_ranked (r : SearchResult) (l : list SearchResult)
    : list SearchResult :=
  match l with
  | [] => [r]
  | x :: rest =>
      if Qle_bool (score x) (score r) then r :: x :: rest
      else x :: insert_ranked r rest
  end.

(** Modelled from the spec: the vector database; highest score first. *)
Definition rank (l : list SearchResult) : list SearchResult :=
  foldr insert_ranked [] l.

Section Services.

(** The name of the one shared collection. *)
Variable QDRANT_COLLECTION : string.

(** The embedding server: the response to a request ([/api/embed]), or its
    body ([/api/embeddings], of which the code reads nothing else), or a
    rejected request. The answer may depend on everything that was sent
    before. *)
Variable ollama_embed : list Event -> list string -> Result Response.
Variable ollama_embeddings : list Event -> string -> Result Json.

(** The identifier generator. *)
Variable uuidv4 : list Event -> string.

(** The vector database being unreachable at some request, and its
    similarity measure. *)
Variable qdrant_fault : list Event -> bool.
Variable similarity : Json -> Json -> Q.

Definition post_embed (input : list string) : M Response :=
  fun w => (ollama_embed (trace w) input, log (EmbedCall input) w).

Definition post_embeddings (prompt : string) : M Json :=
  fun w => (ollama_embeddings (trace w) prompt, log (EmbeddingsCall prompt) w).

Definition new_uuid : M string :=
  fun w => (Ok (uuidv4 (trace w)), log UuidCall w).

(** [getClient()] *)
Definition getClient : M unit :=
  fun w => (Ok tt, {| trace := trace w; client := true; db := db w |}).

(** [console.log(JSON.stringify(resp, null, 2))] *)
Definition console_log_json (resp : Response) : M unit :=
  if printable resp then ret tt
  else throw (TypeError "Converting circular structure to JSON").

(** The two [try] blocks of [getEmbedding]: [Some v] is a [return v] taken
    inside them, [None] is control leaving them without a [return]. *)
Definition embedding_attempt (t : Text) : M (option Json) :=
  try_catch
    (resp <- post_embed (inputArray t) ;;
     console_log_json resp ;;;
     ret (probe (data resp)))
    (fun _ =>
       try_catch
         (resp2 <- post_embeddings (prompt_of t) ;;
          ret (probe resp2))
         (fun _ => ret None)).

(** [getEmbedding(text)] *)
Definition getEmbedding (t : Text) : M Json :=
  r <- embedding_attempt t ;;
  match r with
  | Some v => ret v
  | None => throw invalid_embedding
  end.

(** Modelled from the spec: the vector database is a service outside the
    repository; of it the spec gives a collection existence check,
    collection creation with a size and a distance, point upsert, and
    nearest-neighbour search under an equality filter on a payload key
    with a limit on the number of results, and says that a vector of the
    wrong dimension is a failure of the backend. Every request is logged,
    and fails when the database is unreachable. *)
Definition qdrant_request {A} (e : Event) (serve : World -> Result A * World)
    : M A :=
  fun w =>
    if qdrant_fault (trace w) then (Throw (LibraryError "qdrant"), log e w)
    else serve (log e w).

(** Modelled from the spec: the vector database; the collection existence
    check lists the names of the collections. *)
Definition qdrant_getCollections : M (list string) :=
  qdrant_request GetCollections
    (fun w => (Ok (map fst (map_to_list (db w))), w)).

(** Modelled from the spec: the vector database; collection creation with
    [{ size, distance }] makes an empty collection under a new name. *)
Definition qdrant_createCollection (name : string) (size : Json) : M unit :=
  qdrant_request (CreateCollection name size)
    (fun w =>
       match dimension_of size, db w !! name with
       | Some d, None =>
           (Ok tt, set_db (<[name := {| dimension := d; points := [] |}]> (db w)) w)
       | _, _ => (Throw (LibraryError "qdrant"), w)
       end).

(** Modelled from the spec: the vector database; point upsert writes the
    whole batch or, on a vector of the wrong dimension, nothing. *)
Definition qdrant_upsert (name : string) (pts : list Point) : M unit :=
  qdrant_request (Upsert name pts)
    (fun w =>
       match db w !! name with
       | Some c =>
           if forallb (fun p => valid_vector (dimension c) (vector p)) pts
           then (Ok tt,
                 set_db (<[name := {| dimension := dimension c;
                                      points := fold_left upsert_point pts (points c) |}]>
                           (db w)) w)
           else (Throw (LibraryError "qdrant"), w)
       | None => (Throw (LibraryError "qdrant"), w)
       end).

(** Modelled from the spec: the vector database; a result is
    [{ id, score, payload }] of a stored point. *)
Definition scored (q : Json) (p : Point) : SearchResult :=
  {| res_id := id p; score := similarity q (vector p);
     res_payload := payload p |}.

(** Modelled from the spec: the vector database; filtered nearest-neighbour
    search gives the [limit] best ranked of the points that pass the
    filter. *)
Definition qdrant_search (name : string) (req : SearchRequest)
    : M (list SearchResult) :=
  qdrant_request (Search name req)
    (fun w =>
       match db w !! name with
       | Some c =>
           if valid_vector (dimension c) (query req)
           then (Ok (take (Z.to_nat (limit req))
                       (rank (map (scored (query req))
                                (List.filter (satisfies (must req)) (points c))))),
                 w)
           else (Throw (LibraryError "qdrant"), w)
       | None => (Throw (LibraryError "qdrant"), w)
       end).

(** [ensureCollection(vectorSize)] *)
Definition ensureCollection (vectorSize : Json) : M unit :=
  getClient ;;;
  collections <- qdrant_getCollections ;;
  if existsb (String.eqb QDRANT_COLLECTION) collections then ret tt
  else qdrant_createCollection QDRANT_COLLECTION vectorSize.

(** The [for] loop of [upsertChunks], entered at index [i] with the chunks
    from [i] on still to do. *)
Fixpoint embed_chunks (documentId : string) (baseMetadata : gmap string Json)
    (firstEmbedding : Json) (i : Z) (rest : list Chunk) (pts : list Point)
    : M (list Point) :=
  match rest with
  | [] => ret pts
  | chunk :: rest' =>
      v <- (if i =? 0 then ret firstEmbedding else getEmbedding (text chunk)) ;;
      pid <- new_uuid ;;
      embed_chunks documentId baseMetadata firstEmbedding (i + 1) rest'
        (pts ++ [{| id := pid; vector := v;
                    payload := make_payload documentId chunk baseMetadata |}])
  end.

(** [upsertChunks(documentId, chunks, baseMetadata)]; the result is the
    [upserted] count. *)
Definition upsertChunks (documentId : string) (chunks : list Chunk)
    (baseMetadata : gmap string Json) : M Z :=
  match chunks with
  | [] => ret 0
  | c0 :: _ =>
      firstEmbedding <- getEmbedding (text c0) ;;
      size <- lift (js_length firstEmbedding) ;;
      ensureCollection size ;;;
      getClient ;;;
      pts <- embed_chunks documentId baseMetadata firstEmbedding 0 chunks [] ;;
      qdrant_upsert QDRANT_COLLECTION pts ;;;
      ret (Z.of_nat (length pts))
  end.

(** [search(documentId, queryText, topK = 6)] *)
Definition search (documentId : string) (queryText : Text) (topK : option Z)
    : M (list SearchResult) :=
  queryEmbedding <- getEmbedding queryText ;;
  size <- lift (js_length queryEmbedding) ;;
  ensureCollection size ;;;
  getClient ;;;
  qdrant_search QDRANT_COLLECTION
    {| query := queryEmbedding;
       limit := default 6 topK;
       must := [{| key := "documentId"; match_value := JStr documentId |}] |}.

End Services.


Definition is_upsert (e : Event) : bool :=
  match e with Upsert _ _ => true | _ => false end.

Definition quiet (w w' : World) : Prop :=
  (forall name, points_of w' name = points_of w name) /\
  exists evs, trace w' = evs ++ trace w /\
              Forall (fun e => is_upsert e = false) evs.

(** The number of requests to the primary embedding endpoint in a trace. *)
Fixpoint embed_calls (t : list Event) : nat :=
  match t with
  | [] => 0
  | EmbedCall _ :: rest => S (embed_calls rest)
  | _ :: rest => embed_calls rest
  end.


End Vector.

(** ** Context handling of the chat route ([routes/chat.js]) *)

Module Chat.
Import Js Upload Vector.

(** [/[.!?]+/] *)
Definition is_terminal (c : ascii) : bool :=
  (Ascii.eqb c "." || Ascii.eqb c "!" || Ascii.eqb c "?")%bool.

(** [content.split(/[.!?]+/)] *)
Definition fragments (content : string) : list string :=
  split_on is_terminal content.

(** [content.split(/[.!?]+/).filter(s => s.trim().length > 10)] *)
Definition sentences (content : string) : list string :=
  List.filter (fun s => 10 <? Z.of_nat (String.length (trim s)))
    (fragments content).

(** [{ sentence, index, score }] *)
Record Scored : Type := {
  sentence : string;
  index : Z;
  overlap_score : Z
}.

(** The number of question words that contain, or are contained in, a word
    of the sentence. *)
Definition overlap_count (questionWords : list string) (sentence : string) : Z :=
  let sentenceWords := split_on is_space (toLowerCase sentence) in
  Z.of_nat (length
    (List.filter
       (fun word => existsb (fun sw => (includes sw word || includes word sw)%bool)
                      sentenceWords)
       questionWords)).

Fixpoint number_from {A} (i : Z) (l : list A) : list (Z * A) :=
  match l with
  | [] => []
  | x :: rest => (i, x) :: number_from (i + 1) rest
  end.

(** [sort((a, b) => b.score - a.score)]: highest first, equal scores in
    their order of arrival. *)
Fixpoint insert_scored (c : Scored) (l : list Scored) : list Scored :=
  match l with
  | [] => [c]
  | x :: rest =>
      if overlap_score x <? overlap_score c then c :: x :: rest
      else x :: insert_scored c rest
  end.

Definition sort_scored (l : list Scored) : list Scored :=
  fold_left (fun acc c => insert_scored c acc) l [].

(** [findRelevantChunks(content, question, maxChunks = 3)] *)
Definition findRelevantChunks (content question : string)
    (maxChunks : option Z) : list string :=
  let questionWords := split_on is_space (toLowerCase question) in
  let scoredChunks :=
    map (fun '(i, s) => {| sentence := s; index := i;
                           overlap_score := overlap_count questionWords s |})
        (number_from 0 (sentences content)) in
  map (fun c => trim (sentence c))
      (slice (sort_scored scoredChunks) 0 (default 3 maxChunks)).

(** The [scoredChunks] of [findRelevantChunks], before sorting. *)
Definition scoredChunks (content question : string) : list Scored :=
  let questionWords := split_on is_space (toLowerCase question) in
  map (fun '(i, s) => {| sentence := s; index := i;
                         overlap_score := overlap_count questionWords s |})
      (number_from 0 (sentences content)).

(** [a] stands before [b] in the ranking: a higher score, or the same score
    and an earlier place in the content. *)
Definition ranks_before (a b : Scored) : Prop :=
  overlap_score b < overlap_score a \/
  (overlap_score a = overlap_score b /\ index a < index b).

(** An element of [contextResults]: [{ text, page, score }]. *)
Record ContextItem : Type := {
  ctx_text : Json;
  ctx_page : Json;
  ctx_score : Q
}.

(** An element of the [messages] sent to the model: [{ role, content }]. *)
Record Message : Type := {
  role : string;
  content : string
}.

Section Route.

(** The sizing constants read from the environment. A value that does not
    parse is [NaN], which [slice] treats as 0. *)
Variable MAX_CONTEXT_CHUNKS : Z.
Variable CONTEXT_CHARS_PER_CHUNK : Z.
Variable HISTORY_MESSAGES : Z.

(** [JSON.stringify] on an object, and [String] on a number. *)
Variable JSON_stringify : gmap string Json -> Result string.
Variable Number_toString : Q -> string.

(** The outside world of the vector service. *)
Variable QDRANT_COLLECTION : string.
Variable ollama_embed : list Event -> list string -> Result Response.
Variable ollama_embeddings : list Event -> string -> Result Json.
Variable qdrant_fault : list Event -> bool.
Variable similarity : Json -> Json -> Q.

(** [{ text: r.payload?.text || '', page: r.payload?.page || null,
       score: r.score }] *)
Definition context_of_result (r : SearchResult) : ContextItem :=
  {| ctx_text := or_else (default JUndef (res_payload r !! "text")) (JStr "");
     ctx_page := or_else (default JUndef (res_payload r !! "page")) JNull;
     ctx_score := score r |}.

(** [{ text, page: null, score: 0.5 }] *)
Definition context_of_sentence (t : string) : ContextItem :=
  {| ctx_text := JStr t; ctx_page := JNull; ctx_score := 1 # 2 |}.

(** The [contextResults] of the route: the results of the vector search,
    or, when the search throws, the sentences of the fallback scorer. *)
Definition contextResults (documentId question : string)
    (document_content : string) : M (list ContextItem) :=
  try_catch
    (vectorResults <-
       search QDRANT_COLLECTION ollama_embed ollama_embeddings qdrant_fault
         similarity documentId (TStr question) (Some MAX_CONTEXT_CHUNKS) ;;
     ret (map context_of_result vectorResults))
    (fun _ =>
       ret (map context_of_sentence
              (findRelevantChunks document_content question
                 (Some MAX_CONTEXT_CHUNKS)))).

(** [coerceToString(value)] *)
Fixpoint coerceToString (value : Json) : string :=
  match value with
  | JStr s => s
  | JUndef | JNull => ""
  | JArr l => join " " (map coerceToString l)
  | JObj o =>
      match JSON_stringify o with
      | Ok s => s
      | Throw _ => ""
      end
  | JBool b =>
      let s := if b then "true" else "false" in
      if String.eqb s "[object Object]" then "" else s
  | JNum q =>
      let s := Number_toString q in
      if String.eqb s "[object Object]" then "" else s
  end.

(** [contextResults.slice(0, MAX_CONTEXT_CHUNKS)
      .map(c => coerceToString(c.text).slice(0, CONTEXT_CHARS_PER_CHUNK))
      .filter(t => typeof t === 'string' && t.length > 0)] *)
Definition normalizedContext (contextResults : list ContextItem) : list string :=
  List.filter (fun t => 0 <? Z.of_nat (String.length t))
    (map (fun c => str_slice (coerceToString (ctx_text c)) 0 CONTEXT_CHARS_PER_CHUNK)
         (slice contextResults 0 MAX_CONTEXT_CHUNKS)).

(** The part of the history that [generateAIResponse] splices into the
    messages: nothing for an empty history, else
    [conversationHistory.slice(-HISTORY_MESSAGES)]. *)
Definition recentHistory (conversationHistory : list Message) : list Message :=
  if 0 <? Z.of_nat (length conversationHistory)
  then slice_from conversationHistory (- HISTORY_MESSAGES)
  else [].

Definition nl : string := String "010" EmptyString.

Definition systemPrompt : string :=
  "You are an intelligent assistant that helps users understand PDF documents." +:+ nl
  +:+ "    You have access to the document content and conversation history." +:+ nl
  +:+ "    Always provide accurate, helpful answers based on the document content." +:+ nl
  +:+ "    If the information is not in the document, say so clearly." +:+ nl
  +:+ "    Include relevant citations when possible.".

(** The [messages] array that [generateAIResponse] sends. *)
Definition messages (question : string) (context : list string)
    (conversationHistory : list Message) : list Message :=
  let contextText := join (nl +:+ nl) context in
  {| role := "system"; content := systemPrompt |}
  :: recentHistory conversationHistory
  ++ [{| role := "user";
         content := "Document Context:" +:+ nl +:+ contextText
                    +:+ nl +:+ nl +:+ "Question: " +:+ question |}].

(** An element of the [sources] of an answer: [{ page, text, confidence }]. *)
Record Source : Type := {
  src_page : Json;
  src_text : string;
  confidence : Q
}.

(** [contextResults.slice(0, 4).map(c => ({ page: c.page || null,
      text: coerceToString(c.text).slice(0, 200) + '...',
      confidence: typeof c.score === 'number' ? c.score : 0.8 }))];
    the score of a [ContextItem] is a number. *)
Definition sources (contextResults : list ContextItem) : list Source :=
  map (fun c => {| src_page := or_else (ctx_page c) JNull;
                   src_text := str_slice (coerceToString (ctx_text c)) 0 200
                               +:+ "...";
                   confidence := ctx_score c |})
      (slice contextResults 0 4).

End Route.

End Chat.

(** ** The embedding step of the upload route ([routes/upload.js]) *)

Module UploadRoute.
Import Js Upload Vector.

(** The options that the route passes to the chunker. *)
Definition route_opts : ChunkOpts :=
  {| chunkTokens := Some 800; overlapTokens := Some 100;
     model := Some "gpt-3.5-turbo" |}.

Section Route.

Variable encoding_for_model : string -> Result Encoder.
Variable utf8_decode : list Byte.byte -> string.
Variable QDRANT_COLLECTION : string.
Variable ollama_embed : list Event -> list string -> Result Response.
Variable ollama_embeddings : list Event -> string -> Result Json.
Variable uuidv4 : list Event -> string.
Variable qdrant_fault : list Event -> bool.

(** The [try] block "Embeddings + Qdrant upsert" of [POST /api/upload] and
    its [catch], which only prints: the result is [document.chunkCount] as
    the block leaves it on the document object, [None] when it is not set.
    The saving of the document record is not part of the model. The outer
    [option] is the fuel of the chunker. *)
Definition embed_upload (fuel : nat) (documentId text originalname : string)
    (w : World) : option (option Z * World) :=
  match chunkTextByTokens encoding_for_model utf8_decode fuel (Some text)
          route_opts with
  | None => None
  | Some (Throw _) => Some (None, w)
  | Some (Ok chunks) =>
      match upsertChunks QDRANT_COLLECTION ollama_embed ollama_embeddings
              uuidv4 qdrant_fault documentId chunks
              (<["filename" := JStr originalname]> ∅) w with
      | (Ok n, w') => Some (Some n, w')
      | (Throw _, w') => Some (None, w')
      end
  end.

End Route.

End UploadRoute.

(** ** Small instances of the outside world, for the worked examples *)

Module Examples.
Import Js Upload Vector Chat.

(** A small tokenizer for examples: one token per character. *)
Definition char_encoder : Encoder :=
  {| encode := fun s =>
       Ok (map (fun a => Z.of_nat (nat_of_ascii a)) (list_ascii_of_string s));
     decode := fun ts =>
       Ok (DecStr (string_of_list_ascii
                     (map (fun t => ascii_of_nat (Z.to_nat t)) ts))) |}.

Definition char_encoding_for_model (_ : string) : Result Encoder :=
  Ok char_encoder.

Definition latin1_decode (b : list Byte.byte) : string :=
  string_of_list_ascii (map ascii_of_byte b).

Definition tiny_opts (c o : Z) : ChunkOpts :=
  {| chunkTokens := Some c; overlapTokens := Some o; model := None |}.

Definition embedding_body (v : list Json) : Json :=
  JObj (<["embedding" := JArr v]> ∅).

(** An embedding server that always answers with a vector of two numbers. *)
Definition steady_embed (_ : list Event) (_ : list string) : Result Response :=
  Ok {| data := embedding_body [JNum 1; JNum 0]; printable := true |}.




Definition down_embed (_ : list Event) (_ : list string) : Result Response :=
  Throw (LibraryError "axios").

Definition legacy_down (_ : list Event) (_ : string) : Result Json :=
  Throw (LibraryError "axios").


Definition count_uuid (t : list Event) : string :=
  string_of_list_ascii (repeat "x"%char (length t)).

Definition no_fault (_ : list Event) : bool := false.

Definition unit_similarity (_ _ : Json) : Q := 1.

Definition empty_world : World := {| trace := []; client := false; db := ∅ |}.

Definition chunk_of (s : string) (i : Z) : Chunk :=
  {| text := TArr [s]; page := None; chunkIndex := i |}.

(** Document A with two chunks, then document B with one, in one collection. *)
Definition world_A : World :=
  snd (upsertChunks "pdf_chunks" steady_embed legacy_down count_uuid no_fault
         "A" [chunk_of "a" 0; chunk_of "b" 1] ∅ empty_world).

Definition world_AB : World :=
  snd (upsertChunks "pdf_chunks" steady_embed legacy_down count_uuid no_fault
         "B" [chunk_of "c" 0] ∅ world_A).

Definition search_A : Result (list SearchResult) * World :=
  search "pdf_chunks" steady_embed legacy_down no_fault unit_similarity
    "A" (TStr "q") (Some 5) world_AB.

Definition results_A : list SearchResult :=
  match fst search_A with Ok rs => rs | Throw _ => [] end.


(** A call whose metadata carries a [documentId] of its own. *)
Definition overriding_upsert : Result Z * World :=
  upsertChunks "pdf_chunks" steady_embed legacy_down count_uuid no_fault
    "B" [chunk_of "c" 0] (<["documentId" := JStr "A"]> ∅) world_A.


(** Printers for the values that [coerceToString] prints. *)
Definition stringify_stub (_ : gmap string Json) : Result string := Ok "{}".
Definition number_stub (_ : Q) : string := "0".

(** A search result that carries the payload made for a chunk. *)
Definition result_of_chunk : SearchResult :=
  {| res_id := "x"; score := 1;
     res_payload := make_payload "A" (chunk_of "a" 0) ∅ |}.

Definition short_history : list Message :=
  [{| role := "user"; content := "hi" |};
   {| role := "assistant"; content := "hello" |}].

Definition two_sentences : string :=
  "The cat sat on the mat. Dogs are running fast!".

End Examples.

(** * Properties *)

Import Js Upload Vector Chat UploadRoute Examples.

(** ** The chunker *)

Section ChunkerFacts.

Variable encoding_for_model : string -> Result Encoder.
Variable utf8_decode : list Byte.byte -> string.

Abbreviation loop := (chunk_loop utf8_decode).
Abbreviation chunker := (chunkTextByTokens encoding_for_model utf8_decode).

Lemma ceil_div_step a b : 0 < b -> ceil_div (a + b) b = 1 + ceil_div a b.
Proof.
  intros Hb. unfold ceil_div.
  replace (a + b + b - 1) with (a + b - 1 + 1 * b) by ring.
  rewrite Z.div_add by lia. ring.
Qed.

Lemma ceil_div_small a b : 0 < b -> a <= b -> ceil_div a b <= 1.
Proof.
  intros Hb Ha. unfold ceil_div.
  assert ((a + b - 1) / b < 2); [|lia].
  apply Z.div_lt_upper_bound; lia.
Qed.

Lemma ceil_div_pos a b : 0 < b -> 0 < a -> 1 <= ceil_div a b.
Proof.
  intros Hb Ha. unfold ceil_div.
  apply Z.div_le_lower_bound; lia.
Qed.

(** With an overlap below the window size the loop ends, after adding
    [passes_from] chunks. *)
Lemma loop_count enc tokens C O :
  decodes enc -> 0 <= O < C ->
  forall fuel st,
    0 <= start st < Z.of_nat (length tokens) ->
    (Z.to_nat (Z.of_nat (length tokens) - start st) <= fuel)%nat ->
    exists new,
      loop fuel enc tokens C O st = Some (Ok (chunks st ++ new)) /\
      Z.of_nat (length new) = passes_from (Z.of_nat (length tokens)) C O (start st).
Proof.
  intros Hdec HO. set (N := Z.of_nat (length tokens)).
  induction fuel as [|fuel IH]; intros st Hs Hfuel; [lia|].
  cbn [chunk_loop]. fold N.
  destruct (Z.ltb_spec (start st) N) as [_|]; [|lia].
  unfold loop_body. fold N.
  destruct (Hdec (slice tokens (start st) (Z.min (start st + C) N))) as [d ->].
  destruct (Z.eqb_spec (Z.min (start st + C) N) N) as [Hend|Hend].
  - eexists. split; [reflexivity|].
    unfold passes_from. cbn [length].
    pose proof (ceil_div_small (N - start st - O) (C - O)). lia.
  - assert (Hlt : start st + C < N) by lia.
    rewrite Z.min_l by lia.
    destruct (Z.ltb_spec (start st + C - O) 0) as [|_]; [lia|].
    match goal with
    | |- context [chunk_loop _ fuel _ _ _ _ ?s] =>
        destruct (IH s) as (new & Hrun & Hlen); [cbn; lia | cbn; lia |]
    end.
    cbn [start chunks] in *. rewrite Hrun.
    eexists (_ :: new). split.
    { rewrite <- app_assoc. reflexivity. }
    rewrite length_cons, Nat2Z.inj_succ, Hlen. unfold passes_from.
    replace (N - start st - O) with (N - (start st + C - O) - O + (C - O)) by ring.
    rewrite ceil_div_step by lia.
    pose proof (ceil_div_pos (N - (start st + C - O) - O) (C - O)). lia.
Qed.

(** With an overlap that is not below the window size and more tokens
    than one window holds, the loop comes back to a position that it has
    already visited, and never ends. *)
Lemma loop_diverges enc tokens C O :
  decodes enc -> 1 <= C <= O ->
  forall fuel st,
    0 <= start st -> start st + C < Z.of_nat (length tokens) ->
    loop fuel enc tokens C O st = None.
Proof.
  intros Hdec HO. set (N := Z.of_nat (length tokens)).
  induction fuel as [|fuel IH]; intros st Hs Hlt; [reflexivity|].
  cbn [chunk_loop]. fold N.
  destruct (Z.ltb_spec (start st) N) as [_|]; [|lia].
  unfold loop_body. fold N.
  destruct (Hdec (slice tokens (start st) (Z.min (start st + C) N))) as [d ->].
  destruct (Z.eqb_spec (Z.min (start st + C) N) N) as [Hend|Hend]; [lia|].
  apply IH; cbn [start]; destruct (Z.ltb_spec (Z.min (start st + C) N - O) 0); lia.
Qed.

Lemma chunk_shape_snoc enc tokens cs a b d :
  chunk_shape utf8_decode enc tokens cs ->
  decode enc (slice tokens a b) = Ok d ->
  chunk_shape utf8_decode enc tokens
    (cs ++ [{| text := TArr [text_of utf8_decode d]; page := None;
               chunkIndex := Z.of_nat (length cs) |}]).
Proof.
  intros Hcs Hd i c Hi.
  apply lookup_app_Some in Hi as [Hi|[Hge Hi]]; [now apply Hcs|].
  apply list_lookup_singleton_Some in Hi as [Hz <-]. cbn.
  split; [eauto|]. split; [reflexivity|]. f_equal. lia.
Qed.

Lemma loop_shape enc tokens C O :
  forall fuel st cs,
    chunk_shape utf8_decode enc tokens (chunks st) ->
    nextIndex st = Z.of_nat (length (chunks st)) ->
    loop fuel enc tokens C O st = Some (Ok cs) ->
    chunk_shape utf8_decode enc tokens cs.
Proof.
  induction fuel as [|fuel IH]; intros st cs Hinv Hidx Hrun; [discriminate|].
  cbn [chunk_loop] in Hrun.
  destruct (start st <? Z.of_nat (length tokens));
    [|injection Hrun as <-; exact Hinv].
  unfold loop_body in Hrun.
  destruct (decode enc _) as [d|e] eqn:Hd; [|discriminate].
  rewrite Hidx in Hrun.
  pose proof (chunk_shape_snoc _ _ _ _ _ _ Hinv Hd) as Hnew.
  destruct (_ =? _) in Hrun; [injection Hrun as <-; exact Hnew|].
  eapply IH; [| |exact Hrun]; cbn [chunks nextIndex]; [exact Hnew|].
  rewrite length_app. cbn. lia.
Qed.

(** The loop throws only what [decode] throws. *)
Lemma loop_throw enc tokens C O e :
  forall fuel st,
    loop fuel enc tokens C O st = Some (Throw e) ->
    exists ts, decode enc ts = Throw e.
Proof.
  induction fuel as [|fuel IH]; intros st Hrun; [discriminate|].
  cbn [chunk_loop] in Hrun.
  destruct (start st <? Z.of_nat (length tokens)); [|discriminate].
  unfold loop_body in Hrun.
  destruct (decode enc _) as [d|e'] eqn:Hd;
    [|injection Hrun as <-; eexists; exact Hd].
  destruct (_ =? _) in Hrun; [discriminate|].
  eapply IH, Hrun.
Qed.

(** C4, as amended. For a text of [N >= 1] tokens, a window of [C] tokens
    and an overlap [O] with [0 <= O < C], the chunker returns, and the
    number of chunks is [max(1, ceil(max(N - O, 0) / (C - O)))]: the count
    of the specification when [N > O], and one chunk when [N <= O]. In
    particular a text of at most [C] tokens gives exactly one chunk. *)
Theorem chunk_count raw opts enc tokens C O fuel :
  encoding_for_model (str_or (model opts) "gpt-3.5-turbo") = Ok enc ->
  encode enc (str_or raw "") = Ok tokens ->
  decodes enc ->
  chunkTokens opts = Some C -> overlapTokens opts = Some O -> 0 <= O < C ->
  (1 <= length tokens <= fuel)%nat ->
  let N := Z.of_nat (length tokens) in
  exists cs,
    chunker fuel raw opts = Some (Ok cs) /\
    Z.of_nat (length cs) = Z.max 1 (expected_chunks N C O) /\
    (O < N -> Z.of_nat (length cs) = expected_chunks N C O) /\
    (N <= C -> length cs = 1%nat).
Proof.
  intros Hm He Hdec HC HOv HO Hlen N.
  unfold chunkTextByTokens. rewrite Hm, He.
  unfold chunkSize_of, overlap_of. rewrite HC, HOv. cbn [num_or].
  assert (HCz : (if C =? 0 then 2000 else C) = C)
    by (destruct (Z.eqb_spec C 0); lia).
  assert (HOz : (if O =? 0 then 0 else O) = O)
    by (destruct (Z.eqb_spec O 0); lia).
  rewrite HCz, HOz, (Z.max_r 1 C), (Z.max_r 0 O) by lia.
  destruct (loop_count enc tokens C O Hdec HO fuel (init_state))
    as (cs & Hrun & Hcount); [cbn; lia | cbn; lia |].
  exists cs. cbn [chunks init_state app] in Hrun. split; [exact Hrun|].
  unfold passes_from in Hcount. cbn [start init_state] in Hcount.
  fold N in Hcount. rewrite Z.sub_0_r in Hcount. unfold expected_chunks.
  destruct (Z.le_gt_cases N O) as [Hle|Hgt].
  - pose proof (ceil_div_small (N - O) (C - O)).
    rewrite (Z.max_r (N - O) 0) by lia.
    assert (ceil_div 0 (C - O) = 0)
      by (unfold ceil_div; apply Z.div_small; lia).
    assert (ceil_div (N - O) (C - O) <= 0).
    { unfold ceil_div.
      assert ((N - O + (C - O) - 1) / (C - O) < 1); [|lia].
      apply Z.div_lt_upper_bound; lia. }
    repeat split; lia.
  - rewrite (Z.max_l (N - O) 0) by lia.
    pose proof (ceil_div_pos (N - O) (C - O)).
    pose proof (ceil_div_small (N - O) (C - O)).
    repeat split; lia.
Qed.

(** C6, as amended. Every chunk that the chunker returns has the shape
    [{ text: [string], page: null, chunkIndex }]: [text] is an array of
    one string, the text decoded from a window of the tokens, [page] is
    always [null], and [chunkIndex] counts up from 0 in the order of the
    result. *)
Theorem chunk_fields fuel raw opts cs :
  chunker fuel raw opts = Some (Ok cs) ->
  exists enc tokens,
    encoding_for_model (str_or (model opts) "gpt-3.5-turbo") = Ok enc /\
    encode enc (str_or raw "") = Ok tokens /\
    chunk_shape utf8_decode enc tokens cs.
Proof.
  unfold chunkTextByTokens. intros Hrun.
  destruct (encoding_for_model _) as [enc|] eqn:Hm; [|discriminate].
  destruct (encode enc _) as [tokens|] eqn:He; [|discriminate].
  exists enc, tokens. split; [reflexivity|]. split; [exact He|].
  eapply loop_shape; [| |exact Hrun]; [|reflexivity].
  intros i c Hi. cbn [chunks init_state] in Hi.
  pose proof (lookup_nil (A:=Chunk) i). congruence.
Qed.

Lemma chunkSize_nonpositive c o m :
  c <= 0 ->
  chunkSize_of {| chunkTokens := Some c; overlapTokens := o; model := m |}
  = if c =? 0 then 2000 else 1.
Proof.
  intros Hc. unfold chunkSize_of. cbn [chunkTokens num_or].
  destruct (Z.eqb_spec c 0); lia.
Qed.

(** C7, as amended. A [chunkTokens] that is not positive is not refused:
    0 counts as absent and becomes the default 2000, a negative value is
    raised to 1, and the chunker goes on exactly as with that window size.
    It throws nothing of its own: whatever it throws was thrown by the
    tokenizer, and with a tokenizer that does not throw and an overlap below
    the window size it returns chunks. *)
Theorem nonpositive_chunkTokens_replaced fuel raw c o m :
  c <= 0 ->
  let opts := {| chunkTokens := Some c; overlapTokens := o; model := m |} in
  let size := if c =? 0 then 2000 else 1 in
  chunker fuel raw opts
  = chunker fuel raw
      {| chunkTokens := Some size; overlapTokens := o; model := m |}
  /\ (forall e,
        chunker fuel raw opts = Some (Throw e) ->
        encoding_for_model (str_or m "gpt-3.5-turbo") = Throw e \/
        exists enc,
          encoding_for_model (str_or m "gpt-3.5-turbo") = Ok enc /\
          (encode enc (str_or raw "") = Throw e \/
           exists ts, decode enc ts = Throw e))
  /\ (forall enc tokens,
        encoding_for_model (str_or m "gpt-3.5-turbo") = Ok enc ->
        encode enc (str_or raw "") = Ok tokens ->
        decodes enc ->
        overlap_of opts < size ->
        (length tokens < fuel)%nat ->
        exists cs, chunker fuel raw opts = Some (Ok cs)).
Proof.
  intros Hc opts size. split; [|split].
  - unfold chunkTextByTokens. subst opts.
    rewrite chunkSize_nonpositive by exact Hc.
    unfold chunkSize_of, overlap_of. cbn [chunkTokens overlapTokens model num_or].
    subst size. destruct (Z.eqb_spec c 0) as [->|Hne]; [reflexivity|].
    reflexivity.
  - intros e. unfold chunkTextByTokens. cbn [model opts].
    destruct (encoding_for_model _) as [enc|e1]; [|left; congruence].
    intros Hrun. right. exists enc. split; [reflexivity|].
    destruct (encode enc _) as [tokens|e2]; [|left; congruence].
    right. eapply loop_throw, Hrun.
  - intros enc tokens Hm He Hdec Hov Hfuel.
    unfold chunkTextByTokens. cbn [model opts]. rewrite Hm, He.
    fold opts. unfold opts at 1. rewrite chunkSize_nonpositive by exact Hc.
    fold size.
    destruct tokens as [|t tokens].
    + destruct fuel as [|fuel]; [cbn in Hfuel; lia|]. eexists. reflexivity.
    + destruct (loop_count enc (t :: tokens) size (overlap_of opts) Hdec)
        with (fuel := fuel) (st := init_state) as (cs & Hrun & _).
      * unfold overlap_of in *. lia.
      * cbn. lia.
      * cbn [start init_state]. lia.
      * exists cs. exact Hrun.
Qed.

End ChunkerFacts.

(** The tokenizer of the examples always decodes. *)
Lemma char_encoder_decodes : decodes char_encoder.
Proof. intros ts. eexists. reflexivity. Qed.

(** C2. With [chunkTokens = 1] and [overlapTokens = 1] on a text of two
    tokens the loop never leaves its first window: whatever the fuel, the
    chunker has not returned. *)
Theorem chunker_stuck_when_overlap_fills_window :
  forall fuel,
    chunkTextByTokens char_encoding_for_model latin1_decode fuel (Some "ab")
      (tiny_opts 1 1) = None.
Proof.
  intros fuel. unfold chunkTextByTokens. cbn -[chunk_loop].
  apply loop_diverges;
    [apply char_encoder_decodes | | |];
    unfold chunkSize_of, overlap_of, tiny_opts; cbn; lia.
Qed.

Lemma chunk_count_witness :
  exists cs,
    chunkTextByTokens char_encoding_for_model latin1_decode 7 (Some "abcdefg")
      (tiny_opts 3 1) = Some (Ok cs) /\
    Z.of_nat (length cs) = Z.max 1 (expected_chunks 7 3 1) /\
    (1 < 7 -> Z.of_nat (length cs) = expected_chunks 7 3 1) /\
    (7 <= 3 -> length cs = 1%nat).
Proof.
  apply (chunk_count char_encoding_for_model latin1_decode (Some "abcdefg")
           (tiny_opts 3 1) char_encoder
           (map (fun a => Z.of_nat (nat_of_ascii a)) (list_ascii_of_string "abcdefg"))
           3 1 7%nat).
  - reflexivity.
  - reflexivity.
  - intros ts. eexists. reflexivity.
  - reflexivity.
  - reflexivity.
  - lia.
  - simpl. lia.
Defined.

(** C4 as stated fails on a text shorter than the overlap: one token, a
    window of 3 and an overlap of 2 give one chunk, where the count of the
    specification is 0. *)
Lemma short_text_one_chunk_formula_zero :
  chunkTextByTokens char_encoding_for_model latin1_decode 1 (Some "a")
    (tiny_opts 3 2)
  = Some (Ok [{| text := TArr ["a"]; page := None; chunkIndex := 0 |}])
  /\ encode char_encoder "a" = Ok [97]
  /\ expected_chunks 1 3 2 = 0.
Proof. repeat split. Qed.

Lemma chunk_fields_witness :
  exists enc tokens,
    char_encoding_for_model (str_or None "gpt-3.5-turbo") = Ok enc /\
    encode enc (str_or (Some "abc") "") = Ok tokens /\
    chunk_shape latin1_decode enc tokens
      [{| text := TArr ["ab"]; page := None; chunkIndex := 0 |};
       {| text := TArr ["bc"]; page := None; chunkIndex := 1 |}].
Proof.
  apply (chunk_fields char_encoding_for_model latin1_decode 2 (Some "abc")
           (tiny_opts 2 1)).
  reflexivity.
Defined.

(** C6 as stated fails: the [text] of a returned chunk is an array, not a
    string. *)
Lemma chunk_text_is_array :
  exists c,
    chunkTextByTokens char_encoding_for_model latin1_decode 1 (Some "a")
      default_opts = Some (Ok [c]) /\
    text c = TArr ["a"] /\
    forall s, text c <> TStr s.
Proof.
  eexists. split; [reflexivity|]. split; [reflexivity|]. intros s. discriminate.
Qed.

Lemma nonpositive_chunkTokens_witness :
  let opts := {| chunkTokens := Some (-5); overlapTokens := None; model := None |} in
  let size := if -5 =? 0 then 2000 else 1 in
  chunkTextByTokens char_encoding_for_model latin1_decode 4 (Some "abc") opts
  = chunkTextByTokens char_encoding_for_model latin1_decode 4 (Some "abc")
      {| chunkTokens := Some size; overlapTokens := None; model := None |}
  /\ (forall e,
        chunkTextByTokens char_encoding_for_model latin1_decode 4 (Some "abc") opts
        = Some (Throw e) ->
        char_encoding_for_model (str_or None "gpt-3.5-turbo") = Throw e \/
        exists enc,
          char_encoding_for_model (str_or None "gpt-3.5-turbo") = Ok enc /\
          (encode enc (str_or (Some "abc") "") = Throw e \/
           exists ts, decode enc ts = Throw e))
  /\ (forall enc tokens,
        char_encoding_for_model (str_or None "gpt-3.5-turbo") = Ok enc ->
        encode enc (str_or (Some "abc") "") = Ok tokens ->
        decodes enc ->
        overlap_of opts < size ->
        (length tokens < 4)%nat ->
        exists cs,
          chunkTextByTokens char_encoding_for_model latin1_decode 4 (Some "abc") opts
          = Some (Ok cs)).
Proof.
  apply (nonpositive_chunkTokens_replaced char_encoding_for_model latin1_decode
           4 (Some "abc") (-5) None None).
  lia.
Defined.

(** C7 as stated fails: with [chunkTokens] 0 or negative the chunker
    returns chunks and throws nothing. *)
Lemma nonpositive_chunkTokens_chunks :
  chunkTextByTokens char_encoding_for_model latin1_decode 3 (Some "abc")
    {| chunkTokens := Some 0; overlapTokens := None; model := None |}
  = Some (Ok [{| text := TArr ["abc"]; page := None; chunkIndex := 0 |}])
  /\
  chunkTextByTokens char_encoding_for_model latin1_decode 3 (Some "abc")
    {| chunkTokens := Some (-5); overlapTokens := None; model := None |}
  = Some (Ok [{| text := TArr ["a"]; page := None; chunkIndex := 0 |};
              {| text := TArr ["b"]; page := None; chunkIndex := 1 |};
              {| text := TArr ["c"]; page := None; chunkIndex := 2 |}]).
Proof. split; reflexivity. Qed.

(** ** The vector service *)

Lemma quiet_refl w : quiet w w.
Proof. split; [reflexivity|]. exists []. split; [reflexivity|constructor]. Qed.

Lemma quiet_trans w1 w2 w3 : quiet w1 w2 -> quiet w2 w3 -> quiet w1 w3.
Proof.
  intros [Hp1 (e1 & Ht1 & Hf1)] [Hp2 (e2 & Ht2 & Hf2)]. split.
  - intros name. now rewrite Hp2, Hp1.
  - exists (e2 ++ e1). split.
    + now rewrite Ht2, Ht1, app_assoc.
    + apply Forall_app; split; assumption.
Qed.

Lemma quiet_log e w : is_upsert e = false -> quiet w (log e w).
Proof.
  intros He. split; [reflexivity|]. exists [e]. split; [reflexivity|].
  constructor; [exact He|constructor].
Qed.

Lemma quiet_log_after e w w' :
  is_upsert e = false -> quiet w w' -> quiet w (log e w').
Proof. intros He Hq. eapply quiet_trans; [exact Hq|now apply quiet_log]. Qed.

Lemma quiet_client w :
  quiet w {| trace := trace w; client := true; db := db w |}.
Proof. split; [reflexivity|]. exists []. split; [reflexivity|constructor]. Qed.

Create HintDb quiet.
#[local] Hint Resolve quiet_refl quiet_log quiet_log_after quiet_client : quiet.

(** The two outcomes of a sequence. *)
Lemma bind_inv {A B} (c : M A) (k : A -> M B) w r w' :
  bind c k w = (r, w') ->
  (exists a w1, c w = (Ok a, w1) /\ k a w1 = (r, w')) \/
  (exists e, c w = (Throw e, w') /\ r = Throw e).
Proof.
  unfold bind. destruct (c w) as [[a|e] w1]; intros H.
  - left. eauto.
  - right. injection H as <- <-. eauto.
Qed.

Lemma upsert_point_elem l q p :
  In p (upsert_point l q) -> In p l \/ p = q.
Proof.
  unfold upsert_point. destruct (existsb _ l).
  - intros Hin. apply in_map_iff in Hin as (x & Hx & Hin).
    destruct (String.eqb (id x) (id q)); [right|left]; congruence.
  - intros Hin. apply in_app_iff in Hin as [Hin|[Hin|[]]]; auto.
Qed.

Lemma upsert_points_elem pts : forall l p,
  In p (fold_left upsert_point pts l) -> In p l \/ In p pts.
Proof.
  induction pts as [|q pts IH]; intros l p Hin; cbn in *; [auto|].
  apply IH in Hin as [Hin|Hin]; [|auto].
  apply upsert_point_elem in Hin as [Hin| ->]; auto.
Qed.

Lemma insert_ranked_elem r l x : In x (insert_ranked r l) -> x = r \/ In x l.
Proof.
  induction l as [|y l IH]; cbn.
  - intros [<-|[]]. now left.
  - destruct (Qle_bool (score y) (score r)); cbn.
    + intros [<-|[<-|Hin]]; auto.
    + intros [<-|Hin]; [auto|]. apply IH in Hin as [->|Hin]; auto.
Qed.

Lemma rank_elem l x : In x (rank l) -> In x l.
Proof.
  unfold rank. induction l as [|y l IH]; cbn; [auto|].
  intros Hin. apply insert_ranked_elem in Hin as [->|Hin]; auto.
Qed.

Lemma Forall2_In_left {A B} (P : A -> B -> Prop) l1 l2 x :
  Forall2 P l1 l2 -> In x l1 -> exists y, In y l2 /\ P x y.
Proof.
  induction 1 as [|a b l1 l2 Hab _ IH]; cbn; [intros []|].
  intros [<-|Hin]; [eauto|]. destruct (IH Hin) as (y & Hy & HP). eauto.
Qed.

(** A key of the metadata wins over the field of the same name. *)
Lemma make_payload_override documentId chunk (md : gmap string Json) k v :
  md !! k = Some v -> make_payload documentId chunk md !! k = Some v.
Proof. intros Hk. unfold make_payload. now apply lookup_union_Some_l. Qed.

(** Without such a key the payload carries the document id of the call. *)
Lemma make_payload_documentId documentId chunk (md : gmap string Json) :
  md !! "documentId" = None ->
  make_payload documentId chunk md !! "documentId" = Some (JStr documentId).
Proof.
  intros Hk. unfold make_payload. rewrite lookup_union_r by exact Hk.
  apply lookup_insert_eq.
Qed.

Lemma satisfies_documentId documentId p :
  satisfies [{| key := "documentId"; match_value := JStr documentId |}] p = true ->
  payload p !! "documentId" = Some (JStr documentId).
Proof.
  unfold satisfies. cbn. destruct (payload p !! "documentId") as [v|]; [|discriminate].
  rewrite andb_true_r. destruct v; cbn; try discriminate.
  intros Heq. apply String.eqb_eq in Heq. congruence.
Qed.

Section VectorFacts.

Variable QDRANT_COLLECTION : string.
Variable ollama_embed : list Event -> list string -> Result Response.
Variable ollama_embeddings : list Event -> string -> Result Json.
Variable uuidv4 : list Event -> string.
Variable qdrant_fault : list Event -> bool.
Variable similarity : Json -> Json -> Q.

Abbreviation embedding := (getEmbedding ollama_embed ollama_embeddings).
Abbreviation ensure := (ensureCollection QDRANT_COLLECTION qdrant_fault).
Abbreviation embed_loop :=
  (embed_chunks ollama_embed ollama_embeddings uuidv4).
Abbreviation upsert_chunks :=
  (upsertChunks QDRANT_COLLECTION ollama_embed ollama_embeddings uuidv4
     qdrant_fault).
Abbreviation vector_search :=
  (search QDRANT_COLLECTION ollama_embed ollama_embeddings qdrant_fault
     similarity).

Lemma getEmbedding_quiet t w r w' : embedding t w = (r, w') -> quiet w w'.
Proof.
  unfold getEmbedding, embedding_attempt, try_catch, bind, post_embed,
    post_embeddings, console_log_json, ret, throw.
  destruct (ollama_embed _ _) as [[d []]|e]; cbn [printable data].
  1: destruct (probe d); intros H; injection H as <- <-; auto with quiet.
  all: destruct (ollama_embeddings _ _) as [d'|e'];
    [destruct (probe d')|]; intros H; injection H as <- <-; auto with quiet.
Qed.

(** [getEmbedding] throws one error only. *)
Lemma getEmbedding_throw t w e w' :
  embedding t w = (Throw e, w') -> e = invalid_embedding.
Proof.
  unfold getEmbedding, embedding_attempt, try_catch, bind, post_embed,
    post_embeddings, console_log_json, ret, throw.
  destruct (ollama_embed _ _) as [[d []]|e0]; cbn [printable data].
  1: destruct (probe d); intros H; congruence.
  all: destruct (ollama_embeddings _ _) as [d'|e'];
    [destruct (probe d')|]; intros H; congruence.
Qed.

Lemma createCollection_quiet name size w r w' :
  qdrant_createCollection qdrant_fault name size w = (r, w') -> quiet w w'.
Proof.
  unfold qdrant_createCollection, qdrant_request.
  destruct (qdrant_fault _); [intros H; injection H as <- <-; auto with quiet|].
  destruct (dimension_of size) as [d|];
    [|intros H; injection H as <- <-; auto with quiet].
  cbn [db log]. destruct (db w !! name) eqn:Hdb;
    intros H; injection H as <- <-; auto with quiet.
  eapply quiet_trans; [apply (quiet_log (CreateCollection name size)); reflexivity|].
  split; [|exists []; split; [reflexivity|constructor]].
  intros n. unfold points_of, set_db. cbn [db log].
  destruct (decide (name = n)) as [<-|Hne].
  - now rewrite lookup_insert_eq, Hdb.
  - now rewrite lookup_insert_ne.
Qed.

Lemma ensureCollection_quiet size w r w' : ensure size w = (r, w') -> quiet w w'.
Proof.
  unfold ensureCollection. intros H.
  apply bind_inv in H as [(u & w1 & H1 & H)|(e & H1 & _)];
    unfold getClient in H1; [injection H1 as <- <-|discriminate].
  apply bind_inv in H as [(names & w2 & H2 & H)|(e & H2 & _)];
    unfold qdrant_getCollections, qdrant_request in H2;
    destruct (qdrant_fault _); try discriminate;
    injection H2 as <- <-; auto with quiet.
  destruct (existsb _ _).
  - injection H as <- <-. auto with quiet.
  - apply createCollection_quiet in H.
    eapply quiet_trans; [|exact H]. auto with quiet.
Qed.

Lemma embed_chunks_quiet documentId md fe : forall rest i acc w r w',
  embed_loop documentId md fe i rest acc w = (r, w') -> quiet w w'.
Proof.
  induction rest as [|chunk rest IH]; intros i acc w r w' H; cbn in H.
  - injection H as <- <-. auto with quiet.
  - apply bind_inv in H as [(v & w1 & H1 & H)|(e & H1 & _)].
    + assert (quiet w w1) as Hq1.
      { destruct (i =? 0); [injection H1 as <- <-; auto with quiet|].
        eapply getEmbedding_quiet, H1. }
      apply bind_inv in H as [(pid & w2 & H2 & H)|(e & H2 & _)];
        unfold new_uuid in H2; [injection H2 as <- <-|discriminate].
      apply IH in H. eapply quiet_trans; [|exact H]. auto with quiet.
    + destruct (i =? 0); [discriminate|]. eapply getEmbedding_quiet, H1.
Qed.

Lemma ensureCollection_throw size w e w' :
  ensure size w = (Throw e, w') -> e = LibraryError "qdrant".
Proof.
  unfold ensureCollection. intros H.
  apply bind_inv in H as [(u & w1 & H1 & H)|(e' & H1 & _)];
    unfold getClient in H1; [injection H1 as <- <-|discriminate].
  apply bind_inv in H as [(names & w2 & H2 & H)|(e' & H2 & He)];
    unfold qdrant_getCollections, qdrant_request in H2;
    destruct (qdrant_fault _) eqn:Hf; try discriminate.
  - destruct (existsb _ _); [discriminate|].
    unfold qdrant_createCollection, qdrant_request in H.
    destruct (qdrant_fault (trace w2)); [congruence|].
    destruct (dimension_of size); [|congruence].
    destruct (db _ !! _); congruence.
  - congruence.
Qed.

(** The loop throws only when the embedding of one of its chunks throws. *)
Lemma embed_chunks_throw documentId md fe : forall rest i acc w e w',
  embed_loop documentId md fe i rest acc w = (Throw e, w') ->
  exists c w1, In c rest /\ embedding (text c) w1 = (Throw e, w').
Proof.
  induction rest as [|chunk rest IH]; intros i acc w e w' H; cbn in H.
  - discriminate.
  - apply bind_inv in H as [(v & w1 & H1 & H)|(e' & H1 & He)].
    + apply bind_inv in H as [(pid & w2 & H2 & H)|(e' & H2 & _)];
        unfold new_uuid in H2; [|discriminate].
      apply IH in H as (c & w3 & Hc & Hemb). exists c, w3. cbn. auto.
    + destruct (i =? 0); [discriminate|]. injection He as ->.
      exists chunk, w. cbn. auto.
Qed.

(** The loop adds one point per chunk, in order, each with the payload
    made from its chunk. *)
Lemma embed_chunks_points documentId md fe : forall rest i acc w pts w',
  embed_loop documentId md fe i rest acc w = (Ok pts, w') ->
  exists new,
    pts = acc ++ new /\
    Forall2 (fun p c => payload p = make_payload documentId c md) new rest.
Proof.
  induction rest as [|chunk rest IH]; intros i acc w pts w' H; cbn in H.
  - injection H as <- <-. exists []. split; [now rewrite app_nil_r|constructor].
  - apply bind_inv in H as [(v & w1 & H1 & H)|(e & _ & He)]; [|discriminate].
    apply bind_inv in H as [(pid & w2 & H2 & H)|(e & _ & He)]; [|discriminate].
    apply IH in H as (new & -> & Hall).
    eexists (_ :: new). split; [now rewrite <- app_assoc|].
    constructor; [reflexivity|exact Hall].
Qed.

Lemma qdrant_upsert_throw name pts w e w' :
  qdrant_upsert qdrant_fault name pts w = (Throw e, w') ->
  e = LibraryError "qdrant".
Proof.
  unfold qdrant_upsert, qdrant_request.
  destruct (qdrant_fault _); [congruence|].
  destruct (db _ !! name) as [c|]; [|congruence].
  destruct (forallb _ pts); congruence.
Qed.

Lemma qdrant_upsert_ok name pts w u w' :
  qdrant_upsert qdrant_fault name pts w = (Ok u, w') ->
  trace w' = Upsert name pts :: trace w /\
  forall p, In p (points_of w' name) -> In p (points_of w name) \/ In p pts.
Proof.
  unfold qdrant_upsert, qdrant_request.
  destruct (qdrant_fault _); [discriminate|]. cbn [db log].
  destruct (db w !! name) as [c|] eqn:Hdb; [|discriminate].
  destruct (forallb _ pts); [|discriminate].
  intros H. injection H as _ <-. split; [reflexivity|].
  intros p. unfold points_of, set_db. cbn [db log].
  rewrite lookup_insert_eq, Hdb. cbn [points]. apply upsert_points_elem.
Qed.

Lemma qdrant_search_ok name req w rs w' :
  qdrant_search qdrant_fault similarity name req w = (Ok rs, w') ->
  trace w' = Search name req :: trace w /\
  forall r, In r rs ->
    exists p, In p (points_of w name) /\
              r = scored similarity (query req) p /\
              satisfies (must req) p = true.
Proof.
  unfold qdrant_search, qdrant_request.
  destruct (qdrant_fault _); [discriminate|]. cbn [db log].
  unfold points_of.
  destruct (db w !! name) as [c|]; [|discriminate].
  destruct (valid_vector _ _); [|discriminate].
  intros H. injection H as <- <-. split; [reflexivity|].
  intros r Hr. apply list_elem_of_In in Hr.
  apply (subseteq_take _ _ r) in Hr. apply list_elem_of_In in Hr.
  apply rank_elem in Hr. apply in_map_iff in Hr as (p & <- & Hp).
  apply filter_In in Hp as [Hp Hsat]. eauto.
Qed.

(** [upsertChunks] ends with the error of [getEmbedding] only when the
    embedding of one of its chunks has thrown it. *)
Lemma invalid_embedding_is_a_failed_chunk documentId chunks md w w' :
  upsert_chunks documentId chunks md w = (Throw invalid_embedding, w') ->
  exists c w1,
    In c chunks /\ embedding (text c) w1 = (Throw invalid_embedding, w').
Proof.
  intros H. unfold upsertChunks in H.
  destruct chunks as [|c0 rest]; [discriminate|].
  apply bind_inv in H as [(fe & w1 & H1 & H)|(e & H1 & He)].
  2: { injection He as <-. exists c0, w. cbn. auto. }
  apply bind_inv in H as [(size & w2 & H2 & H)|(e & H2 & He)];
    unfold lift in H2.
  2: { injection H2 as H2 _. injection He as <-.
       destruct fe; discriminate H2. }
  injection H2 as _ <-.
  apply bind_inv in H as [(u & w3 & H3 & H)|(e & H3 & He)].
  2: { apply ensureCollection_throw in H3. subst e. discriminate He. }
  apply bind_inv in H as [(u' & w4 & H4 & H)|(e & H4 & _)];
    unfold getClient in H4; [injection H4 as _ <-|discriminate].
  apply bind_inv in H as [(pts & w5 & H5 & H)|(e & H5 & He)].
  2: { injection He as <-. apply embed_chunks_throw in H5. exact H5. }
  apply bind_inv in H as [(u'' & w6 & H6 & H)|(e & H6 & He)];
    [discriminate|].
  apply qdrant_upsert_throw in H6. subst e. discriminate He.
Qed.


(** What a successful [upsertChunks] on at least one chunk has done: it
    ended with one upsert of one point per chunk, each with the payload
    made from its chunk, and the collection holds nothing but what it held
    before and these points. *)
Lemma upsertChunks_ok documentId chunks md w n w' :
  chunks <> [] ->
  upsert_chunks documentId chunks md w = (Ok n, w') ->
  exists pts,
    head (trace w') = Some (Upsert QDRANT_COLLECTION pts) /\
    n = Z.of_nat (length chunks) /\
    Forall2 (fun p c => payload p = make_payload documentId c md) pts chunks /\
    forall p, In p (points_of w' QDRANT_COLLECTION) ->
              In p (points_of w QDRANT_COLLECTION) \/ In p pts.
Proof.
  intros Hne H. unfold upsertChunks in H.
  destruct chunks as [|c0 rest]; [congruence|].
  apply bind_inv in H as [(fe & w1 & H1 & H)|(e & _ & He)]; [|discriminate].
  apply getEmbedding_quiet in H1 as [Hp1 _].
  apply bind_inv in H as [(size & w2 & H2 & H)|(e & _ & He)]; [|discriminate].
  unfold lift in H2. injection H2 as _ <-.
  apply bind_inv in H as [(u & w3 & H3 & H)|(e & _ & He)]; [|discriminate].
  apply ensureCollection_quiet in H3 as [Hp3 _].
  apply bind_inv in H as [(u' & w4 & H4 & H)|(e & _ & He)]; [|discriminate].
  unfold getClient in H4. injection H4 as _ <-.
  apply bind_inv in H as [(pts & w5 & H5 & H)|(e & _ & He)]; [|discriminate].
  pose proof (embed_chunks_quiet _ _ _ _ _ _ _ _ _ H5) as [Hp5 _].
  apply embed_chunks_points in H5 as (new & -> & Hall). cbn [app] in *.
  apply bind_inv in H as [(u'' & w6 & H6 & H)|(e & _ & He)]; [|discriminate].
  apply qdrant_upsert_ok in H6 as [Htr Hin].
  unfold ret in H. injection H as <- <-.
  exists new. split; [now rewrite Htr|].
  split; [now rewrite (Forall2_length _ _ _ Hall)|].
  split; [exact Hall|].
  intros p Hp. apply Hin in Hp as [Hp|Hp]; [left|now right].
  rewrite Hp5 in Hp. unfold points_of at 1 in Hp. cbn [db] in Hp.
  fold (points_of w3 QDRANT_COLLECTION) in Hp. now rewrite Hp3, Hp1 in Hp.
Qed.

(** C10. A key of [baseMetadata] overrides the field of the same name in
    the payload of every point that [upsertChunks] stores: the call upserts
    one point per chunk, each of them has the value of [baseMetadata]
    under that key, and every point of the collection after the call was
    there before or has it. With the key [documentId] the stored
    [payload.documentId] is the one of [baseMetadata], not the argument. *)
Theorem baseMetadata_overrides_payload documentId chunks md k v w n w' :
  chunks <> [] ->
  md !! k = Some v ->
  upsert_chunks documentId chunks md w = (Ok n, w') ->
  exists pts,
    head (trace w') = Some (Upsert QDRANT_COLLECTION pts) /\
    length pts = length chunks /\
    (forall p, In p pts -> payload p !! k = Some v) /\
    (forall p, In p (points_of w' QDRANT_COLLECTION) ->
               In p (points_of w QDRANT_COLLECTION) \/ payload p !! k = Some v).
Proof.
  intros Hne Hk H.
  apply upsertChunks_ok in H as (pts & Htr & _ & Hall & Hin); [|exact Hne].
  assert (Hpay : forall p, In p pts -> payload p !! k = Some v).
  { intros p Hp.
    destruct (Forall2_In_left _ _ _ _ Hall Hp) as (c & _ & ->).
    now apply make_payload_override. }
  exists pts. split; [exact Htr|]. split; [exact (Forall2_length _ _ _ Hall)|].
  split; [exact Hpay|].
  intros p Hp. apply Hin in Hp as [Hp|Hp]; [now left|right; now apply Hpay].
Qed.


(** C1. Every result of [search(A, q, k)] carries [A] as its payload
    [documentId], so none carries a different id [B]: each result is a
    point of the shared collection that passed the filter of the request,
    and the request sent to the database is the one whose only condition
    is [documentId = A]. *)
Theorem search_isolation A B q k w rs w' :
  A <> B ->
  vector_search A q k w = (Ok rs, w') ->
  (forall r, In r rs -> res_payload r !! "documentId" <> Some (JStr B)) /\
  (forall r, In r rs ->
     res_payload r !! "documentId" = Some (JStr A) /\
     exists p, In p (points_of w QDRANT_COLLECTION) /\
               res_id r = id p /\ res_payload r = payload p) /\
  exists v,
    head (trace w') =
    Some (Search QDRANT_COLLECTION
            {| query := v; limit := default 6 k;
               must := [{| key := "documentId"; match_value := JStr A |}] |}).
Proof.
  intros Hne H. unfold search in H.
  apply bind_inv in H as [(qe & w1 & H1 & H)|(e & _ & He)]; [|discriminate].
  apply getEmbedding_quiet in H1 as [Hp1 _].
  apply bind_inv in H as [(size & w2 & H2 & H)|(e & _ & He)]; [|discriminate].
  unfold lift in H2. injection H2 as _ <-.
  apply bind_inv in H as [(u & w3 & H3 & H)|(e & _ & He)]; [|discriminate].
  apply ensureCollection_quiet in H3 as [Hp3 _].
  apply bind_inv in H as [(u' & w4 & H4 & H)|(e & _ & He)]; [|discriminate].
  unfold getClient in H4. injection H4 as _ <-.
  apply qdrant_search_ok in H as [Htr Hres]. cbn [query must] in Hres.
  assert (Hall : forall r, In r rs ->
     res_payload r !! "documentId" = Some (JStr A) /\
     exists p, In p (points_of w QDRANT_COLLECTION) /\
               res_id r = id p /\ res_payload r = payload p).
  { intros r Hr. apply Hres in Hr as (p & Hp & -> & Hsat).
    apply satisfies_documentId in Hsat. split; [exact Hsat|].
    exists p. split; [|split; reflexivity].
    unfold points_of at 1 in Hp. cbn [db] in Hp.
    fold (points_of w3 QDRANT_COLLECTION) in Hp. now rewrite Hp3, Hp1 in Hp. }
  split; [|split; [exact Hall|]].
  - intros r Hr. apply Hall in Hr as [-> _]. congruence.
  - exists qe. now rewrite Htr.
Qed.

End VectorFacts.

Lemma search_isolation_witness :
  length results_A = 2%nat /\
  length (points_of world_AB "pdf_chunks") = 3%nat /\
  ((forall r, In r results_A -> res_payload r !! "documentId" <> Some (JStr "B")) /\
   (forall r, In r results_A ->
      res_payload r !! "documentId" = Some (JStr "A") /\
      exists p, In p (points_of world_AB "pdf_chunks") /\
                res_id r = id p /\ res_payload r = payload p) /\
   exists v,
     head (trace (snd search_A)) =
     Some (Search "pdf_chunks"
             {| query := v; limit := default 6 (Some 5);
                must := [{| key := "documentId"; match_value := JStr "A" |}] |})).
Proof.
  split; [vm_compute; reflexivity|]. split; [vm_compute; reflexivity|].
  apply (search_isolation "pdf_chunks" steady_embed legacy_down no_fault
           unit_similarity "A" "B" (TStr "q") (Some 5) world_AB).
  - discriminate.
  - vm_compute. reflexivity.
Defined.


Lemma baseMetadata_overrides_witness :
  exists pts,
    head (trace (snd overriding_upsert)) = Some (Upsert "pdf_chunks" pts) /\
    length pts = length [chunk_of "c" 0] /\
    (forall p, In p pts -> payload p !! "documentId" = Some (JStr "A")) /\
    (forall p, In p (points_of (snd overriding_upsert) "pdf_chunks") ->
               In p (points_of world_A "pdf_chunks") \/
               payload p !! "documentId" = Some (JStr "A")).
Proof.
  apply (baseMetadata_overrides_payload "pdf_chunks" steady_embed legacy_down
           count_uuid no_fault "B" [chunk_of "c" 0]
           (<["documentId" := JStr "A"]> ∅) "documentId" (JStr "A") world_A 1).
  - discriminate.
  - vm_compute. reflexivity.
  - vm_compute. reflexivity.
Defined.



(** ** Context handling of the chat route *)

Lemma string_of_list_length l :
  String.length (string_of_list_ascii l) = length l.
Proof. induction l as [|c l IH]; cbn; [reflexivity|now rewrite IH]. Qed.

Lemma slice_prefix_length {A} (l : list A) n :
  0 <= n -> Z.of_nat (length (slice l 0 n)) <= n.
Proof.
  intros Hn. unfold slice, rel_index.
  destruct (Z.ltb_spec 0 0); [lia|]. destruct (Z.ltb_spec n 0); [lia|].
  rewrite length_take, length_drop. lia.
Qed.

Lemma slice_from_suffix_length {A} (l : list A) n :
  1 <= n -> Z.of_nat (length (slice_from l (- n))) <= n.
Proof.
  intros Hn. unfold slice_from, rel_index.
  destruct (Z.ltb_spec (- n) 0); [|lia].
  rewrite length_drop. lia.
Qed.

Lemma slice_from_zero {A} (l : list A) : slice_from l 0 = l.
Proof.
  unfold slice_from, rel_index. cbn.
  now rewrite Z.min_l by lia.
Qed.

Lemma filter_length_le {A} (f : A -> bool) (l : list A) :
  (length (List.filter f l) <= length l)%nat.
Proof.
  induction l as [|x l IH]; cbn; [lia|]. destruct (f x); cbn; lia.
Qed.

(** The pieces that [split_runs] cuts hold no separator. *)
Lemma split_runs_clean sep : forall s cur in_run piece,
  Forall (fun c => sep c = false) cur ->
  In piece (split_runs sep cur in_run s) ->
  Forall (fun c => sep c = false) piece.
Proof.
  induction s as [|c s IH]; intros cur in_run piece Hcur Hin; cbn in Hin.
  - destruct Hin as [<-|[]]. rewrite Forall_forall in *.
    intros x Hx. apply Hcur. now apply list_elem_of_In, in_rev, list_elem_of_In.
  - destruct (sep c) eqn:Hc.
    + destruct in_run.
      * eapply IH; eassumption.
      * destruct Hin as [<-|Hin].
        -- rewrite Forall_forall in *.
           intros x Hx. apply Hcur.
           now apply list_elem_of_In, in_rev, list_elem_of_In.
        -- eapply IH; [|exact Hin]. constructor.
    + eapply IH; [|exact Hin]. constructor; assumption.
Qed.

Section RouteFacts.

Variable MAX_CONTEXT_CHUNKS : Z.
Variable CONTEXT_CHARS_PER_CHUNK : Z.
Variable HISTORY_MESSAGES : Z.
Variable JSON_stringify : gmap string Json -> Result string.
Variable Number_toString : Q -> string.

Abbreviation context_of :=
  (normalizedContext MAX_CONTEXT_CHUNKS CONTEXT_CHARS_PER_CHUNK
     JSON_stringify Number_toString).

(** With caps that are not negative, the context holds at most
    [MAX_CONTEXT_CHUNKS] texts, each of 1 to [CONTEXT_CHARS_PER_CHUNK]
    characters. *)
Lemma context_caps results :
  0 <= MAX_CONTEXT_CHUNKS -> 0 <= CONTEXT_CHARS_PER_CHUNK ->
  Z.of_nat (length (context_of results)) <= MAX_CONTEXT_CHUNKS /\
  forall t, In t (context_of results) ->
    0 < Z.of_nat (String.length t) <= CONTEXT_CHARS_PER_CHUNK.
Proof.
  intros Hmax Hchars. unfold normalizedContext. split.
  - pose proof (filter_length_le (fun t => 0 <? Z.of_nat (String.length t))
      (map (fun c => str_slice (coerceToString JSON_stringify Number_toString
                                  (ctx_text c)) 0 CONTEXT_CHARS_PER_CHUNK)
           (slice results 0 MAX_CONTEXT_CHUNKS))) as Hle.
    rewrite length_map in Hle.
    pose proof (slice_prefix_length results MAX_CONTEXT_CHUNKS Hmax). lia.
  - intros t Ht. apply filter_In in Ht as [Ht Hpos].
    apply Z.ltb_lt in Hpos. split; [exact Hpos|].
    apply in_map_iff in Ht as (c & <- & _). unfold str_slice.
    rewrite string_of_list_length. now apply slice_prefix_length.
Qed.

(** With a history cap of at least 1, at most that many messages are
    forwarded, and they are the last ones. *)
Lemma history_cap history :
  1 <= HISTORY_MESSAGES ->
  Z.of_nat (length (recentHistory HISTORY_MESSAGES history)) <= HISTORY_MESSAGES /\
  exists older, history = older ++ recentHistory HISTORY_MESSAGES history.
Proof.
  intros Hh. unfold recentHistory.
  destruct (Z.ltb_spec 0 (Z.of_nat (length history))) as [Hlen|Hlen].
  - split; [now apply slice_from_suffix_length|].
    unfold slice_from. eexists. symmetry. apply take_drop.
  - split; [cbn; lia|]. exists history. now rewrite app_nil_r.
Qed.

End RouteFacts.

(** C8. With [HISTORY_MESSAGES = 0] the history is not cut at all:
    [slice(-0)] is [slice(0)], so every message of the history is forwarded,
    where the cap allows none. *)
Theorem zero_history_cap_forwards_everything :
  forall history question context,
    recentHistory 0 history = history /\
    length (messages 0 question context history) = (length history + 2)%nat.
Proof.
  intros history question context.
  assert (Hrec : recentHistory 0 history = history).
  { unfold recentHistory.
    destruct (Z.ltb_spec 0 (Z.of_nat (length history))) as [Hlen|Hlen].
    - apply slice_from_zero.
    - destruct history; [reflexivity|cbn in Hlen; lia]. }
  split; [exact Hrec|].
  unfold messages. rewrite Hrec. cbn [length]. rewrite length_app. cbn. lia.
Qed.

(** C9, as amended. The sentences of the fallback scorer are the pieces of
    the content between runs of [.], [!] and [?] whose trimmed length is
    more than 10: a piece of trimmed length 10 or less is dropped, a piece of
    trimmed length 11 or more is kept. No piece holds a [.], [!] or [?]. *)
Theorem sentences_keep_more_than_ten content :
  (forall f, In f (sentences content) <->
             In f (fragments content) /\ (11 <= String.length (trim f))%nat) /\
  (forall f c, In f (fragments content) ->
               In c (list_ascii_of_string f) -> is_terminal c = false).
Proof.
  split.
  - intros f. unfold sentences. rewrite filter_In, Z.ltb_lt. split.
    + intros [Hin Hlen]. split; [exact Hin|lia].
    + intros [Hin Hlen]. split; [exact Hin|lia].
  - intros f c Hf Hc. unfold fragments, split_on in Hf.
    apply in_map_iff in Hf as (piece & <- & Hpiece).
    rewrite list_ascii_of_string_of_list_ascii in Hc.
    apply split_runs_clean in Hpiece; [|constructor].
    rewrite Forall_forall in Hpiece. now apply Hpiece, list_elem_of_In.
Qed.

(** C9 as stated fails: a piece of exactly 10 characters is dropped. *)
Lemma ten_character_fragment_dropped :
  let content := "0123456789. This one is long enough."%string in
  In "0123456789"%string (fragments content) /\
  String.length (trim "0123456789") = 10%nat /\
  sentences content = [" This one is long enough"%string] /\
  ~ In "0123456789"%string (sentences content).
Proof.
  cbv zeta. split; [vm_compute; auto|]. split; [reflexivity|].
  split; [reflexivity|].
  intros Hin. vm_compute in Hin. destruct Hin as [Heq|[]]. discriminate Heq.
Qed.

(** * Further properties *)

(** ** The chunker: termination and windows *)

Section ChunkerWindows.

Variable encoding_for_model : string -> Result Encoder.
Variable utf8_decode : list Byte.byte -> string.

Abbreviation loop' := (chunk_loop utf8_decode).
Abbreviation chunker' := (chunkTextByTokens encoding_for_model utf8_decode).

(** With an overlap below the window size the loop ends, whatever the
    tokenizer does. *)
Lemma loop_terminates enc tokens C O :
  0 <= O < C ->
  forall fuel st,
    0 <= start st ->
    (Z.to_nat (Z.of_nat (length tokens) - start st) < fuel)%nat ->
    exists r, loop' fuel enc tokens C O st = Some r.
Proof.
  intros HO. set (N := Z.of_nat (length tokens)).
  induction fuel as [|fuel IH]; intros st Hs Hfuel; [lia|].
  cbn [chunk_loop]. fold N.
  destruct (Z.ltb_spec (start st) N) as [Hlt|]; [|eauto].
  unfold loop_body. fold N.
  destruct (decode enc _) as [d|e]; [|eauto].
  destruct (Z.eqb_spec (Z.min (start st + C) N) N) as [Hend|Hend]; [eauto|].
  apply IH; cbn [start];
    destruct (Z.ltb_spec (Z.min (start st + C) N - O) 0); lia.
Qed.

(** What a finished loop has added: the chunk at position [i] holds the
    text of the window that starts [i] steps after the starting position,
    and every token from the starting position on lies in one of these
    windows. *)
Lemma loop_windows enc tokens C O :
  0 <= O < C ->
  forall fuel st cs,
    0 <= start st ->
    loop' fuel enc tokens C O st = Some (Ok cs) ->
    exists new,
      cs = chunks st ++ new /\
      (forall (i : nat) c, new !! i = Some c ->
         let a := start st + Z.of_nat i * (C - O) in
         a < Z.of_nat (length tokens) /\
         chunkIndex c = nextIndex st + Z.of_nat i /\
         exists d,
           decode enc (slice tokens a (Z.min (a + C) (Z.of_nat (length tokens)))) = Ok d /\
           text c = TArr [text_of utf8_decode d]) /\
      (forall j, start st <= j < Z.of_nat (length tokens) ->
         exists (i : nat) c,
           new !! i = Some c /\
           start st + Z.of_nat i * (C - O) <= j
           < start st + Z.of_nat i * (C - O) + C).
Proof.
  intros HO. set (N := Z.of_nat (length tokens)).
  induction fuel as [|fuel IH]; intros st cs Hs Hrun; [discriminate|].
  cbn [chunk_loop] in Hrun. fold N in Hrun.
  destruct (Z.ltb_spec (start st) N) as [Hlt|Hge].
  2: { injection Hrun as <-. exists []. rewrite app_nil_r.
       split; [reflexivity|]. split.
       - intros i c Hi. destruct i; discriminate Hi.
       - intros j Hj. lia. }
  unfold loop_body in Hrun. fold N in Hrun.
  destruct (decode enc _) as [d|e] eqn:Hd; [|discriminate].
  destruct (Z.eqb_spec (Z.min (start st + C) N) N) as [Hend|Hend].
  - injection Hrun as <-. eexists [_]. split; [reflexivity|]. split.
    + intros i c Hi. destruct i as [|i]; [|destruct i; discriminate Hi].
      injection Hi as <-. cbn [chunkIndex text Z.of_nat].
      rewrite Z.mul_0_l, !Z.add_0_r.
      split; [exact Hlt|]. split; [reflexivity|]. eauto.
    + intros j Hj. exists 0%nat. eexists. split; [reflexivity|]. cbn. lia.
  - assert (Hmin : Z.min (start st + C) N = start st + C) by lia.
    rewrite Hmin in Hrun, Hd.
    destruct (Z.ltb_spec (start st + C - O) 0) as [|_]; [lia|].
    apply IH in Hrun as (new & -> & Hwin & Hcov); [|cbn; lia].
    cbn [start chunks nextIndex] in *.
    eexists (_ :: new). split; [now rewrite <- app_assoc|]. split.
    + intros i c Hi. destruct i as [|i].
      * injection Hi as <-. cbn [chunkIndex text Z.of_nat].
        rewrite Z.mul_0_l, !Z.add_0_r.
        split; [exact Hlt|]. split; [reflexivity|].
        exists d. rewrite Z.min_l by lia. auto.
      * cbn in Hi. apply Hwin in Hi as (Ha & Hidx & Hdec).
        rewrite Nat2Z.inj_succ.
        replace (start st + Z.succ (Z.of_nat i) * (C - O))
          with (start st + C - O + Z.of_nat i * (C - O)) by ring.
        split; [exact Ha|]. split; [lia|]. exact Hdec.
    + intros j Hj. destruct (Z.lt_ge_cases j (start st + C)) as [Hin|Hout].
      * exists 0%nat. eexists. split; [reflexivity|]. cbn. lia.
      * destruct (Hcov j) as (i & c & Hi & Hj'); [lia|].
        exists (S i), c. split; [exact Hi|].
        rewrite Nat2Z.inj_succ.
        replace (start st + Z.succ (Z.of_nat i) * (C - O))
          with (start st + C - O + Z.of_nat i * (C - O)) by ring.
        exact Hj'.
Qed.

(** X1. With an overlap below the window size, [chunkTextByTokens] always
    comes to an end, be it with chunks or with an error of the tokenizer. *)
Theorem chunker_terminates raw opts :
  overlap_of opts < chunkSize_of opts ->
  exists fuel r, chunker' fuel raw opts = Some r.
Proof.
  intros HO. unfold chunkTextByTokens.
  destruct (encoding_for_model _) as [enc|e]; [|exists 0%nat; eauto].
  destruct (encode enc _) as [tokens|e]; [|exists 0%nat; eauto].
  exists (S (length tokens)).
  apply loop_terminates; [unfold overlap_of in *; lia|cbn; lia|cbn; lia].
Qed.


(** X3. With an overlap below the window size no token is left out: every
    position of the token sequence lies in the window of some chunk of the
    result. *)
Theorem chunker_covers_every_token fuel raw opts cs enc tokens j :
  overlap_of opts < chunkSize_of opts ->
  encoding_for_model (str_or (model opts) "gpt-3.5-turbo") = Ok enc ->
  encode enc (str_or raw "") = Ok tokens ->
  chunker' fuel raw opts = Some (Ok cs) ->
  0 <= j < Z.of_nat (length tokens) ->
  exists (i : nat) c,
    cs !! i = Some c /\
    let a := Z.of_nat i * (chunkSize_of opts - overlap_of opts) in
    a <= j < a + chunkSize_of opts.
Proof.
  intros HO Hm He Hrun Hj. unfold chunkTextByTokens in Hrun.
  rewrite Hm, He in Hrun.
  apply loop_windows in Hrun as (new & -> & _ & Hcov);
    [|unfold overlap_of in *; lia|cbn; lia].
  cbn [chunks init_state app start] in *.
  destruct (Hcov j Hj) as (i & c & Hi & Hin).
  exists i, c. split; [exact Hi|]. cbn zeta. lia.
Qed.

(** X4. A text without tokens gives no chunk, with every configuration. *)
Theorem chunker_no_tokens_no_chunks fuel raw opts enc :
  encoding_for_model (str_or (model opts) "gpt-3.5-turbo") = Ok enc ->
  encode enc (str_or raw "") = Ok [] ->
  chunker' (S fuel) raw opts = Some (Ok []).
Proof.
  intros Hm He. unfold chunkTextByTokens. now rewrite Hm, He.
Qed.

(** X5. With a tokenizer that works, the chunker comes to an end exactly
    when the overlap is below the window size or the text fits in one
    window. *)
Theorem chunker_ends_iff raw opts enc tokens :
  encoding_for_model (str_or (model opts) "gpt-3.5-turbo") = Ok enc ->
  encode enc (str_or raw "") = Ok tokens ->
  decodes enc ->
  (exists fuel r, chunker' fuel raw opts = Some r) <->
  (overlap_of opts < chunkSize_of opts \/
   Z.of_nat (length tokens) <= chunkSize_of opts).
Proof.
  intros Hm He Hdec. split.
  - intros (fuel & r & Hrun).
    destruct (Z.lt_ge_cases (overlap_of opts) (chunkSize_of opts)) as [|HO];
      [now left|].
    destruct (Z.le_gt_cases (Z.of_nat (length tokens)) (chunkSize_of opts))
      as [|HN]; [now right|].
    unfold chunkTextByTokens in Hrun. rewrite Hm, He in Hrun.
    rewrite loop_diverges in Hrun; [discriminate|exact Hdec| |cbn; lia|cbn; lia].
    unfold chunkSize_of in *. lia.
  - intros [HO|HN].
    { exists (S (length tokens)). unfold chunkTextByTokens. rewrite Hm, He.
      apply loop_terminates; [unfold overlap_of in *; lia|cbn; lia|cbn; lia]. }
    exists 1%nat. unfold chunkTextByTokens. rewrite Hm, He.
    cbn [chunk_loop start init_state].
    destruct (Z.ltb_spec 0 (Z.of_nat (length tokens))); [|eauto].
    unfold loop_body. cbn [start init_state].
    destruct (Hdec (slice tokens 0
                (Z.min (0 + chunkSize_of opts) (Z.of_nat (length tokens)))))
      as [d ->].
    destruct (Z.eqb_spec (Z.min (0 + chunkSize_of opts) (Z.of_nat (length tokens)))
                (Z.of_nat (length tokens))); [eauto|lia].
Qed.

End ChunkerWindows.

(** ** The vector service: requests and side effects *)

Lemma listed_collection (d : gmap string Collection) name c :
  d !! name = Some c ->
  existsb (String.eqb name) (map fst (map_to_list d)) = true.
Proof.
  intros Hd. apply existsb_exists. exists name. split; [|apply String.eqb_refl].
  apply in_map_iff. exists (name, c). split; [reflexivity|].
  now apply list_elem_of_In, elem_of_map_to_list.
Qed.

Lemma unlisted_collection (d : gmap string Collection) name :
  d !! name = None ->
  existsb (String.eqb name) (map fst (map_to_list d)) = false.
Proof.
  intros Hd. destruct (existsb _ _) eqn:Hex; [|reflexivity].
  apply existsb_exists in Hex as (n & Hin & Heq).
  apply String.eqb_eq in Heq as <-.
  apply in_map_iff in Hin as ([n c] & Hn & Hin). cbn in Hn. subst n.
  apply list_elem_of_In, elem_of_map_to_list in Hin. congruence.
Qed.

Lemma dimension_of_length n :
  (0 < n)%nat ->
  dimension_of (JNum (inject_Z (Z.of_nat n))) = Some (Z.of_nat n).
Proof.
  intros Hn. unfold dimension_of.
  rewrite Qcanon.Qred_identity by (cbn; apply Z.gcd_1_r). cbn.
  destruct (Z.ltb_spec 0 (Z.of_nat n)); [reflexivity|lia].
Qed.

Section VectorRequests.

Variable QDRANT_COLLECTION : string.
Variable ollama_embed : list Event -> list string -> Result Response.
Variable ollama_embeddings : list Event -> string -> Result Json.
Variable uuidv4 : list Event -> string.
Variable qdrant_fault : list Event -> bool.
Variable similarity : Json -> Json -> Q.

Abbreviation embedding' := (getEmbedding ollama_embed ollama_embeddings).
Abbreviation ensure' := (ensureCollection QDRANT_COLLECTION qdrant_fault).
Abbreviation embed_loop' :=
  (embed_chunks ollama_embed ollama_embeddings uuidv4).
Abbreviation upsert_chunks' :=
  (upsertChunks QDRANT_COLLECTION ollama_embed ollama_embeddings uuidv4
     qdrant_fault).
Abbreviation vector_search' :=
  (search QDRANT_COLLECTION ollama_embed ollama_embeddings qdrant_fault
     similarity).

(** X6. A call of [getEmbedding] sends one request to the primary endpoint
    and at most one more, to the legacy endpoint, and nothing else: it
    leaves the database and the client as they are. *)
Theorem getEmbedding_sends_one_or_two_requests t w :
  let w' := snd (embedding' t w) in
  db w' = db w /\ client w' = client w /\
  (trace w' = EmbedCall (inputArray t) :: trace w \/
   trace w' = EmbeddingsCall (prompt_of t) :: EmbedCall (inputArray t) :: trace w).
Proof.
  unfold getEmbedding, embedding_attempt, try_catch, bind, post_embed,
    post_embeddings, console_log_json, ret, throw. cbn zeta.
  destruct (ollama_embed _ _) as [[d []]|e]; cbn [printable data].
  1: destruct (probe d); cbn; auto.
  all: destruct (ollama_embeddings _ _) as [d'|e'];
    [destruct (probe d')|]; cbn; auto.
Qed.

Lemma getEmbedding_embed_calls t w :
  embed_calls (trace (snd (embedding' t w))) = S (embed_calls (trace w)) /\
  db (snd (embedding' t w)) = db w.
Proof.
  unfold getEmbedding, embedding_attempt, try_catch, bind, post_embed,
    post_embeddings, console_log_json, ret, throw.
  destruct (ollama_embed _ _) as [[d []]|e]; cbn [printable data].
  1: destruct (probe d); cbn; auto.
  all: destruct (ollama_embeddings _ _) as [d'|e'];
    [destruct (probe d')|]; cbn; auto.
Qed.

Lemma ensureCollection_embed_calls size w :
  embed_calls (trace (snd (ensure' size w))) = embed_calls (trace w).
Proof.
  unfold ensureCollection, bind, getClient, qdrant_getCollections,
    qdrant_createCollection, qdrant_request, ret. cbn [trace log].
  destruct (qdrant_fault (trace w)); [reflexivity|]. cbn [db log trace].
  destruct (existsb _ _); [reflexivity|]. cbn [trace log].
  destruct (qdrant_fault _); [reflexivity|].
  destruct (dimension_of size); [|reflexivity].
  cbn [db log]. destruct (db w !! _); reflexivity.
Qed.

Lemma embed_chunks_embed_calls documentId md fe : forall rest i acc w pts w',
  0 < i ->
  embed_loop' documentId md fe i rest acc w = (Ok pts, w') ->
  embed_calls (trace w') = (embed_calls (trace w) + length rest)%nat.
Proof.
  induction rest as [|chunk rest IH]; intros i acc w pts w' Hi H; cbn in H.
  - injection H as _ <-. cbn. lia.
  - destruct (Z.eqb_spec i 0); [lia|].
    apply bind_inv in H as [(v & w1 & H1 & H)|(e & _ & He)]; [|discriminate].
    apply bind_inv in H as [(pid & w2 & H2 & H)|(e & _ & He)]; [|discriminate].
    unfold new_uuid in H2. injection H2 as _ <-.
    apply IH in H; [|lia]. rewrite H. cbn [trace log embed_calls].
    pose proof (getEmbedding_embed_calls (text chunk) w) as [Hc _].
    rewrite H1 in Hc. cbn [snd] in Hc. rewrite Hc. cbn. lia.
Qed.

(** X7. A successful [upsertChunks] has asked the primary embedding
    endpoint exactly once per chunk: the embedding of the first chunk,
    taken to size the collection, is used again and not asked for twice. *)
Theorem upsertChunks_embeds_each_chunk_once documentId chunks md w n w' :
  upsert_chunks' documentId chunks md w = (Ok n, w') ->
  embed_calls (trace w') = (embed_calls (trace w) + length chunks)%nat /\
  n = Z.of_nat (length chunks).
Proof.
  intros H. unfold upsertChunks in H.
  destruct chunks as [|c0 rest].
  { unfold ret in H. injection H as <- <-. cbn. split; [lia|reflexivity]. }
  apply bind_inv in H as [(fe & w1 & H1 & H)|(e & _ & He)]; [|discriminate].
  pose proof (getEmbedding_embed_calls (text c0) w) as [Hc1 _].
  rewrite H1 in Hc1. cbn [snd] in Hc1.
  apply bind_inv in H as [(size & w2 & H2 & H)|(e & _ & He)]; [|discriminate].
  unfold lift in H2. injection H2 as _ <-.
  apply bind_inv in H as [(u & w3 & H3 & H)|(e & _ & He)]; [|discriminate].
  pose proof (ensureCollection_embed_calls size w1) as Hc3.
  rewrite H3 in Hc3. cbn [snd] in Hc3.
  apply bind_inv in H as [(u' & w4 & H4 & H)|(e & _ & He)]; [|discriminate].
  unfold getClient in H4. injection H4 as _ <-.
  apply bind_inv in H as [(pts & w5 & H5 & H)|(e & _ & He)]; [|discriminate].
  pose proof (embed_chunks_points _ _ _ _ _ _ _ _ _ _ _ _ H5)
    as (new & -> & Hall).
  cbn [embed_chunks] in H5. cbn [Z.eqb] in H5.
  apply bind_inv in H5 as [(v & w6 & H6 & H5)|(e & _ & He)]; [|discriminate].
  unfold ret in H6. injection H6 as _ <-.
  apply bind_inv in H5 as [(pid & w7 & H7 & H5)|(e & _ & He)]; [|discriminate].
  unfold new_uuid in H7. injection H7 as _ <-.
  apply embed_chunks_embed_calls in H5; [|lia].
  cbn [trace log embed_calls] in H5.
  apply bind_inv in H as [(u'' & w8 & H8 & H)|(e & _ & He)]; [|discriminate].
  apply qdrant_upsert_ok in H8 as [Htr _].
  unfold ret in H. injection H as <- <-.
  rewrite Htr. cbn [embed_calls]. rewrite H5, Hc3, Hc1.
  split; [cbn; lia|]. cbn [app]. now rewrite (Forall2_length _ _ _ Hall).
Qed.


Lemma qdrant_search_quiet name req w r w' :
  qdrant_search qdrant_fault similarity name req w = (r, w') -> quiet w w'.
Proof.
  unfold qdrant_search, qdrant_request.
  destruct (qdrant_fault _); [intros H; injection H as <- <-; auto with quiet|].
  cbn [db log]. destruct (db w !! name) as [c|];
    [destruct (valid_vector _ _)|]; intros H; injection H as <- <-;
    auto with quiet.
Qed.

(** X9. [search] writes no point: whatever its outcome, it has sent no
    upsert and the points of every collection are what they were. *)
Theorem search_writes_no_point A q k w :
  let w' := snd (vector_search' A q k w) in
  (forall name, points_of w' name = points_of w name) /\
  exists evs, trace w' = evs ++ trace w /\
              forall name pts, ~ In (Upsert name pts) evs.
Proof.
  cbn zeta. destruct (vector_search' A q k w) as [r w'] eqn:H. cbn [snd].
  assert (quiet w w') as [Hpts (evs & Htr & Hev)].
  { unfold search in H.
    apply bind_inv in H as [(qe & w1 & H1 & H)|(e & H1 & _)];
      [|eapply getEmbedding_quiet, H1].
    apply getEmbedding_quiet in H1.
    apply bind_inv in H as [(size & w2 & H2 & H)|(e & H2 & _)];
      unfold lift in H2; [|injection H2 as _ <-; exact H1].
    injection H2 as _ <-.
    apply bind_inv in H as [(u & w3 & H3 & H)|(e & H3 & _)];
      apply ensureCollection_quiet in H3;
      [|eapply quiet_trans; eassumption].
    apply bind_inv in H as [(u' & w4 & H4 & H)|(e & H4 & _)];
      unfold getClient in H4; [injection H4 as _ <-|discriminate].
    apply qdrant_search_quiet in H.
    eauto using quiet_trans, quiet_client. }
  split; [exact Hpts|]. exists evs. split; [exact Htr|].
  intros name pts Hin. rewrite Forall_forall in Hev.
  apply list_elem_of_In, Hev in Hin. discriminate.
Qed.

(** X10. [ensureCollection] leaves a collection that exists as it is,
    whatever the size it is called with: it asks for the list of collections
    and sends nothing else, so neither the dimension nor the points of the
    collection change. *)
Theorem ensureCollection_keeps_existing size w c :
  db w !! QDRANT_COLLECTION = Some c ->
  qdrant_fault (trace w) = false ->
  ensure' size w
  = (Ok tt, log GetCollections {| trace := trace w; client := true; db := db w |}).
Proof.
  intros Hdb Hfault.
  unfold ensureCollection, bind, getClient, qdrant_getCollections,
    qdrant_request, ret. cbn [trace]. rewrite Hfault. cbn [db log].
  now rewrite (listed_collection _ _ _ Hdb).
Qed.

(** X11. On a database without the collection, a [search] whose query is
    embedded creates the collection, empty and of the dimension of the query
    vector, and returns no result. *)
Theorem search_creates_missing_collection A q k w v w1 :
  db w !! QDRANT_COLLECTION = None ->
  (forall t, qdrant_fault t = false) ->
  embedding' q w = (Ok (JArr v), w1) ->
  v <> [] -> forallb is_number v = true ->
  exists w',
    vector_search' A q k w = (Ok [], w') /\
    db w' !! QDRANT_COLLECTION
    = Some {| dimension := Z.of_nat (length v); points := [] |}.
Proof.
  intros Hdb Hfault Hemb Hv Hnum.
  assert (Hdb1 : db w1 = db w).
  { pose proof (getEmbedding_embed_calls q w) as [_ Hs].
    now rewrite Hemb in Hs. }
  assert (Hlen : (0 < length v)%nat) by (destruct v; [congruence|cbn; lia]).
  unfold search, bind. rewrite Hemb. unfold lift, js_length.
  unfold ensureCollection, bind, getClient, qdrant_getCollections,
    qdrant_createCollection, qdrant_search, qdrant_request, ret.
  rewrite !Hfault. cbn [db log trace]. rewrite Hdb1.
  rewrite (unlisted_collection _ _ Hdb). rewrite !Hfault.
  rewrite (dimension_of_length _ Hlen). cbn [db log set_db]. rewrite Hdb.
  rewrite !Hfault. cbn [db log set_db trace client].
  rewrite lookup_insert_eq. cbn [dimension points query limit must valid_vector].
  rewrite Z.eqb_refl, Hnum. cbn [andb List.filter map rank foldr].
  eexists. split; [now rewrite take_nil|]. cbn [db]. apply lookup_insert_eq.
Qed.

Lemma make_payload_fields documentId chunk (md : gmap string Json) :
  md !! "documentId" = None -> md !! "text" = None ->
  md !! "page" = None -> md !! "chunkIndex" = None ->
  make_payload documentId chunk md !! "documentId" = Some (JStr documentId) /\
  make_payload documentId chunk md !! "text" = Some (text_json (text chunk)) /\
  make_payload documentId chunk md !! "page" = Some (page_json (page chunk)) /\
  make_payload documentId chunk md !! "chunkIndex"
  = Some (JNum (inject_Z (chunkIndex chunk))).
Proof.
  intros H1 H2 H3 H4. unfold make_payload.
  rewrite !lookup_union_r by assumption.
  repeat split; simplify_map_eq; reflexivity.
Qed.

(** X12. When [baseMetadata] has none of the keys [documentId], [text],
    [page] and [chunkIndex], a successful [upsertChunks] ends with one upsert
    whose points stand, in order, for the chunks: each payload carries the
    document id of the call, the text and the index of its chunk, and its
    page, with [null] for a page that is absent or 0. *)
Theorem upsertChunks_payload_fields documentId chunks md w n w' :
  chunks <> [] ->
  md !! "documentId" = None -> md !! "text" = None ->
  md !! "page" = None -> md !! "chunkIndex" = None ->
  upsert_chunks' documentId chunks md w = (Ok n, w') ->
  exists pts,
    head (trace w') = Some (Upsert QDRANT_COLLECTION pts) /\
    Forall2 (fun p c =>
               payload p !! "documentId" = Some (JStr documentId) /\
               payload p !! "text" = Some (text_json (text c)) /\
               payload p !! "page" = Some (page_json (page c)) /\
               payload p !! "chunkIndex" = Some (JNum (inject_Z (chunkIndex c))))
            pts chunks.
Proof.
  intros Hne H1 H2 H3 H4 H.
  apply upsertChunks_ok in H as (pts & Htr & _ & Hall & _); [|exact Hne].
  exists pts. split; [exact Htr|].
  eapply Forall2_impl; [exact Hall|].
  intros p c ->. now apply make_payload_fields.
Qed.

End VectorRequests.

(** ** The fallback scorer and the sources of an answer *)

Lemma slice_prefix_elem {A} (l : list A) n x : In x (slice l 0 n) -> In x l.
Proof.
  unfold slice. intros Hin. apply list_elem_of_In in Hin.
  apply (subseteq_take _ _ x) in Hin. apply (subseteq_drop _ _ x) in Hin.
  now apply list_elem_of_In.
Qed.

Lemma insert_scored_elem c l x :
  In x (insert_scored c l) <-> x = c \/ In x l.
Proof.
  induction l as [|y l IH]; cbn.
  - intuition congruence.
  - destruct (overlap_score y <? overlap_score c); cbn; [intuition congruence|].
    rewrite IH. intuition congruence.
Qed.

Lemma insert_scored_perm c l : Permutation (insert_scored c l) (c :: l).
Proof.
  induction l as [|y l IH]; cbn; [reflexivity|].
  destruct (overlap_score y <? overlap_score c); [reflexivity|].
  rewrite IH. apply perm_swap.
Qed.

Lemma ranks_before_score a b : ranks_before a b -> overlap_score b <= overlap_score a.
Proof. unfold ranks_before. lia. Qed.

(** Putting in a later sentence keeps the ranking. *)
Lemma insert_scored_sorted c l :
  StronglySorted ranks_before l ->
  Forall (fun x => index x < index c) l ->
  StronglySorted ranks_before (insert_scored c l).
Proof.
  induction 1 as [|y l Hsorted IH Hy]; intros Hidx; cbn.
  - repeat constructor.
  - apply Forall_cons_1 in Hidx as [Hyc Hidx].
    destruct (Z.ltb_spec (overlap_score y) (overlap_score c)) as [Hlt|Hge].
    + constructor; [now constructor|].
      constructor; [left; exact Hlt|].
      rewrite Forall_forall in *. intros z Hz.
      left. specialize (Hy z Hz). apply ranks_before_score in Hy. lia.
    + constructor; [now apply IH|].
      rewrite Forall_forall in *. intros z Hz.
      apply list_elem_of_In, insert_scored_elem in Hz as [->|Hz].
      * unfold ranks_before. lia.
      * apply Hy. now apply list_elem_of_In.
Qed.

Lemma sort_scored_from acc : forall l,
  StronglySorted ranks_before acc ->
  StronglySorted (fun a b => index a < index b) l ->
  (forall x y, In x acc -> In y l -> index x < index y) ->
  StronglySorted ranks_before (fold_left (fun a c => insert_scored c a) l acc) /\
  Permutation (fold_left (fun a c => insert_scored c a) l acc) (acc ++ l).
Proof.
  intros l. revert acc.
  induction l as [|c l IH]; intros acc Hacc Hl Hlt; cbn.
  - split; [exact Hacc|now rewrite app_nil_r].
  - apply StronglySorted_inv in Hl as [Hl Hc].
    destruct (IH (insert_scored c acc)) as [Hs Hp].
    + apply insert_scored_sorted; [exact Hacc|].
      rewrite Forall_forall. intros x Hx. apply list_elem_of_In in Hx.
      apply Hlt; [exact Hx|now left].
    + exact Hl.
    + intros x y Hx Hy. apply insert_scored_elem in Hx as [->|Hx].
      * rewrite Forall_forall in Hc. now apply Hc, list_elem_of_In.
      * apply Hlt; [exact Hx|now right].
    + split; [exact Hs|].
      etransitivity; [exact Hp|].
      etransitivity; [apply Permutation_app_tail, insert_scored_perm|].
      apply Permutation_middle.
Qed.

Lemma number_from_elem {A} (l : list A) : forall i j x,
  In (j, x) (number_from i l) -> i <= j /\ In x l.
Proof.
  induction l as [|y l IH]; intros i j x; cbn; [intros []|].
  intros [Heq|Hin].
  - injection Heq as <- <-. split; [lia|now left].
  - apply IH in Hin as [Hle Hin]. split; [lia|now right].
Qed.

Lemma number_from_sorted {A B} (f : Z * A -> B) (idx : B -> Z) (l : list A) :
  (forall i x, idx (f (i, x)) = i) ->
  forall i, StronglySorted (fun a b => idx a < idx b) (map f (number_from i l)).
Proof.
  intros Hf. induction l as [|y l IH]; intros i; cbn; constructor.
  - apply IH.
  - rewrite Forall_forall. intros b Hb.
    apply list_elem_of_In, in_map_iff in Hb as ([j x] & <- & Hin).
    apply number_from_elem in Hin as [Hle _]. rewrite !Hf. lia.
Qed.

Lemma scoredChunks_elem content question c :
  In c (scoredChunks content question) -> In (sentence c) (sentences content).
Proof.
  unfold scoredChunks. intros Hin.
  apply in_map_iff in Hin as ([i s] & <- & Hin). cbn.
  now apply number_from_elem in Hin as [_ Hin].
Qed.

Lemma sort_scored_ranking content question :
  StronglySorted ranks_before (sort_scored (scoredChunks content question)) /\
  Permutation (sort_scored (scoredChunks content question))
              (scoredChunks content question).
Proof.
  unfold sort_scored.
  destruct (sort_scored_from [] (scoredChunks content question)) as [Hs Hp].
  - constructor.
  - unfold scoredChunks. apply (number_from_sorted _ index).
    intros i x. reflexivity.
  - intros x y [].
  - split; [exact Hs|exact Hp].
Qed.

(** X13. The fallback scorer ranks by descending score, and sentences of
    the same score keep the order they have in the content; the ranking
    holds the scored sentences, each once, and the result of
    [findRelevantChunks] is its first [maxChunks] sentences, trimmed. *)
Theorem fallback_ranking_is_stable content question maxChunks :
  let ranking := sort_scored (scoredChunks content question) in
  StronglySorted ranks_before ranking /\
  Permutation ranking (scoredChunks content question) /\
  findRelevantChunks content question maxChunks
  = map (fun c => trim (sentence c)) (slice ranking 0 (default 3 maxChunks)).
Proof.
  cbn zeta. destruct (sort_scored_ranking content question) as [Hs Hp].
  split; [exact Hs|]. split; [exact Hp|reflexivity].
Qed.

Lemma relevant_chunk_elem content question maxChunks t :
  In t (findRelevantChunks content question maxChunks) ->
  exists s, In s (sentences content) /\ t = trim s.
Proof.
  unfold findRelevantChunks. fold (scoredChunks content question).
  intros Ht. apply in_map_iff in Ht as (c & <- & Hc).
  apply slice_prefix_elem in Hc.
  destruct (sort_scored_ranking content question) as [_ Hp].
  apply (Permutation_in _ Hp), scoredChunks_elem in Hc. eauto.
Qed.

(** X14. With a limit that is not negative, [findRelevantChunks] returns at
    most that many texts, and each of them is a sentence of the content,
    trimmed: a piece between sentence marks whose trimmed length is above
    10. *)
Theorem findRelevantChunks_bounds content question maxChunks :
  0 <= default 3 maxChunks ->
  Z.of_nat (length (findRelevantChunks content question maxChunks))
  <= default 3 maxChunks /\
  forall t, In t (findRelevantChunks content question maxChunks) ->
    (11 <= String.length t)%nat /\
    exists s, In s (fragments content) /\ t = trim s.
Proof.
  intros Hmax. unfold findRelevantChunks. fold (scoredChunks content question).
  split.
  - rewrite length_map. now apply slice_prefix_length.
  - intros t Ht. apply relevant_chunk_elem in Ht as (s0 & Hc & ->).
    unfold sentences in Hc. apply filter_In in Hc as [Hc Hlen].
    apply Z.ltb_lt in Hlen. split; [lia|eauto].
Qed.

Lemma is_space_lower c : is_space c = true -> lower_char c = c.
Proof.
  unfold is_space, lower_char. intros Hsp.
  match goal with
  | |- (if ?b then _ else _) = _ => destruct b eqn:Hup; [|reflexivity]
  end.
  exfalso.
  rewrite ?Bool.orb_true_iff, ?Bool.andb_true_iff, ?Bool.negb_true_iff,
    ?N.leb_le, ?N.eqb_eq, ?N.eqb_neq in *. lia.
Qed.

Lemma filter_all {A} (f : A -> bool) (l : list A) :
  (forall x, f x = true) -> List.filter f l = l.
Proof.
  intros Hf. induction l as [|x l IH]; cbn; [reflexivity|].
  now rewrite Hf, IH.
Qed.

Lemma includes_empty w : includes w "" = true.
Proof. unfold includes. cbn. now destruct (list_ascii_of_string w). Qed.

(** X15. A sentence that begins with white space has the empty string among
    its words, and the empty string is part of every word: such a sentence
    gets the full score, the number of words of the question, whatever it
    says. *)
Theorem leading_space_gets_full_score questionWords c rest :
  is_space c = true ->
  overlap_count questionWords (String c rest)
  = Z.of_nat (length questionWords).
Proof.
  intros Hsp. unfold overlap_count, split_on, toLowerCase.
  rewrite list_ascii_of_string_of_list_ascii. cbn [list_ascii_of_string map].
  rewrite (is_space_lower _ Hsp). cbn [split_runs]. rewrite Hsp.
  cbn [rev app map string_of_list_ascii existsb].
  rewrite filter_all; [reflexivity|].
  intros w. now rewrite includes_empty, Bool.orb_true_r.
Qed.

Lemma append_length a b :
  String.length (a +:+ b) = (String.length a + String.length b)%nat.
Proof. induction a as [|c a IH]; simpl; [reflexivity|now f_equal]. Qed.

Lemma text_payload_lookup documentId chunk (md : gmap string Json) :
  md !! "text" = None ->
  make_payload documentId chunk md !! "text" = Some (text_json (text chunk)).
Proof.
  intros Hmd. unfold make_payload. rewrite lookup_union_r by exact Hmd.
  now simplify_map_eq.
Qed.

Section RouteMore.

Variable MAX_CONTEXT_CHUNKS : Z.
Variable CONTEXT_CHARS_PER_CHUNK : Z.
Variable HISTORY_MESSAGES : Z.
Variable JSON_stringify : gmap string Json -> Result string.
Variable Number_toString : Q -> string.
Variable QDRANT_COLLECTION : string.
Variable ollama_embed : list Event -> list string -> Result Response.
Variable ollama_embeddings : list Event -> string -> Result Json.
Variable qdrant_fault : list Event -> bool.
Variable similarity : Json -> Json -> Q.

Abbreviation to_string := (coerceToString JSON_stringify Number_toString).
Abbreviation previews := (sources JSON_stringify Number_toString).
Abbreviation route_search :=
  (search QDRANT_COLLECTION ollama_embed ollama_embeddings qdrant_fault
     similarity).
Abbreviation route_context :=
  (contextResults MAX_CONTEXT_CHUNKS QDRANT_COLLECTION ollama_embed
     ollama_embeddings qdrant_fault similarity).

(** X16. When the vector search throws, the route goes on with the
    fallback scorer: [contextResults] is made of at most
    [MAX_CONTEXT_CHUNKS] trimmed sentences of the document, each with no
    page and the score 0.5. *)
Theorem failed_search_falls_back documentId question document_content w e w1 :
  0 <= MAX_CONTEXT_CHUNKS ->
  route_search documentId (TStr question) (Some MAX_CONTEXT_CHUNKS) w
  = (Throw e, w1) ->
  exists items,
    route_context documentId question document_content w = (Ok items, w1) /\
    Z.of_nat (length items) <= MAX_CONTEXT_CHUNKS /\
    forall c, In c items ->
      ctx_page c = JNull /\ ctx_score c = 1 # 2 /\
      exists s, In s (sentences document_content) /\ ctx_text c = JStr (trim s).
Proof.
  intros Hmax Hsearch. unfold contextResults, try_catch, bind.
  rewrite Hsearch. unfold ret. eexists. split; [reflexivity|]. split.
  - rewrite length_map. unfold findRelevantChunks. rewrite length_map.
    now apply slice_prefix_length.
  - intros c Hc. apply in_map_iff in Hc as (t & <- & Ht). cbn.
    split; [reflexivity|]. split; [reflexivity|].
    apply relevant_chunk_elem in Ht as (s0 & Hs & ->). eauto.
Qed.

(** X17. An answer names at most 4 sources, whatever the sizing constants
    are. The text of a source is the first 200 characters of the context
    text followed by three dots, also when nothing was cut, and its page is
    never [undefined]. *)
Theorem sources_are_short_previews results :
  (length (previews results) <= 4)%nat /\
  forall s, In s (previews results) ->
    src_page s <> JUndef /\
    exists c cut,
      In c results /\
      src_text s = cut +:+ "..." /\
      cut = str_slice (to_string (ctx_text c)) 0 200 /\
      (String.length cut <= 200)%nat /\
      (String.length (src_text s) <= 203)%nat.
Proof.
  unfold sources. split.
  - rewrite length_map.
    pose proof (slice_prefix_length results 4). lia.
  - intros s Hs. apply in_map_iff in Hs as (c & <- & Hc). cbn.
    split.
    + unfold or_else. destruct (truthy (ctx_page c)) eqn:Ht; [|discriminate].
      intros Heq. rewrite Heq in Ht. discriminate.
    + exists c, (str_slice (to_string (ctx_text c)) 0 200).
      assert (Hcut : (String.length (str_slice (to_string (ctx_text c)) 0 200)
                      <= 200)%nat).
      { unfold str_slice. rewrite string_of_list_length.
        pose proof (slice_prefix_length
                      (list_ascii_of_string (to_string (ctx_text c))) 200).
        lia. }
      split; [now apply slice_prefix_elem in Hc|].
      split; [reflexivity|]. split; [reflexivity|]. split; [exact Hcut|].
      rewrite append_length. cbn. lia.
Qed.

(** X18. The text of a chunk comes back from the store as it went in: for
    a search result that carries the payload made for a chunk, with a
    [baseMetadata] that has no [text] key, the context text is the string
    of the chunk, or, for an array of strings, its elements joined by
    spaces; for the one-string array that the chunker makes, that string. *)
Theorem stored_text_comes_back documentId chunk md r :
  md !! "text" = None ->
  res_payload r = make_payload documentId chunk md ->
  to_string (ctx_text (context_of_result r))
  = match text chunk with
    | TStr s => s
    | TArr l => join " " l
    end.
Proof.
  intros Hmd Hpay. unfold context_of_result. cbn [ctx_text].
  rewrite Hpay, (text_payload_lookup _ _ _ Hmd).
  unfold default. cbn [from_option]. unfold Datatypes.id.
  destruct (text chunk) as [s|l]; cbn [text_json].
  - unfold or_else. cbn [truthy].
    destruct (String.eqb s "") eqn:Hs; cbn [negb coerceToString];
      [|reflexivity].
    apply String.eqb_eq in Hs. now subst s.
  - unfold or_else. cbn [truthy coerceToString]. f_equal.
    rewrite map_map. cbn. apply map_id.
Qed.

(** X19. With a context cap and a character cap that are not negative and
    a history cap of at least 1, what goes to the model is bounded: at most
    [MAX_CONTEXT_CHUNKS] context texts, each of 1 to
    [CONTEXT_CHARS_PER_CHUNK] characters, and, between the system prompt and
    the question, the last [HISTORY_MESSAGES] messages of the history at
    most. *)
Theorem generation_request_is_bounded results question history :
  0 <= MAX_CONTEXT_CHUNKS -> 0 <= CONTEXT_CHARS_PER_CHUNK ->
  1 <= HISTORY_MESSAGES ->
  let context := normalizedContext MAX_CONTEXT_CHUNKS CONTEXT_CHARS_PER_CHUNK
                   JSON_stringify Number_toString results in
  Z.of_nat (length context) <= MAX_CONTEXT_CHUNKS /\
  (forall t, In t context ->
     0 < Z.of_nat (String.length t) <= CONTEXT_CHARS_PER_CHUNK) /\
  Z.of_nat (length (messages HISTORY_MESSAGES question context history))
  <= HISTORY_MESSAGES + 2 /\
  exists older recent first last,
    history = older ++ recent /\
    messages HISTORY_MESSAGES question context history
    = first :: recent ++ [last] /\
    role first = "system" /\ role last = "user".
Proof.
  intros Hmax Hchars Hhist context.
  destruct (context_caps MAX_CONTEXT_CHUNKS CONTEXT_CHARS_PER_CHUNK
              JSON_stringify Number_toString results Hmax Hchars) as [Hn Hlen].
  destruct (history_cap HISTORY_MESSAGES history Hhist) as [Hh (older & Hold)].
  split; [exact Hn|]. split; [exact Hlen|]. split.
  - unfold messages. cbn [length]. rewrite length_app. cbn [length]. lia.
  - exists older, (recentHistory HISTORY_MESSAGES history).
    eexists _, _. split; [exact Hold|]. split; [reflexivity|].
    split; reflexivity.
Qed.

End RouteMore.

(** ** The embedding step of the upload route *)

Section UploadRouteFacts.

Variable encoding_for_model : string -> Result Encoder.
Variable utf8_decode : list Byte.byte -> string.
Variable QDRANT_COLLECTION : string.
Variable ollama_embed : list Event -> list string -> Result Response.
Variable ollama_embeddings : list Event -> string -> Result Json.
Variable uuidv4 : list Event -> string.
Variable qdrant_fault : list Event -> bool.

Abbreviation route_chunker :=
  (chunkTextByTokens encoding_for_model utf8_decode).
Abbreviation route_upsert :=
  (upsertChunks QDRANT_COLLECTION ollama_embed ollama_embeddings uuidv4
     qdrant_fault).
Abbreviation route_step :=
  (embed_upload encoding_for_model utf8_decode QDRANT_COLLECTION ollama_embed
     ollama_embeddings uuidv4 qdrant_fault).

(** A failed [upsertChunks] has written no point, whatever made it fail. *)
Lemma upsertChunks_throw_keeps_points documentId chunks md w e w' :
  route_upsert documentId chunks md w = (Throw e, w') ->
  forall name, points_of w' name = points_of w name.
Proof.
  intros H. unfold upsertChunks in H.
  destruct chunks as [|c0 rest]; [discriminate|].
  apply bind_inv in H as [(fe & w1 & H1 & H)|(e1 & H1 & _)];
    [|now apply getEmbedding_quiet in H1 as [Hp _]].
  apply getEmbedding_quiet in H1 as [Hp1 _].
  apply bind_inv in H as [(size & w2 & H2 & H)|(e2 & H2 & _)];
    unfold lift in H2; [|injection H2 as _ <-; exact Hp1].
  injection H2 as _ <-.
  apply bind_inv in H as [(u & w3 & H3 & H)|(e3 & H3 & _)];
    apply ensureCollection_quiet in H3 as [Hp3 _];
    [|intros name; now rewrite Hp3, Hp1].
  apply bind_inv in H as [(u' & w4 & H4 & H)|(e4 & H4 & _)];
    unfold getClient in H4; [injection H4 as _ <-|discriminate].
  apply bind_inv in H as [(pts & w5 & H5 & H)|(e5 & H5 & _)];
    apply embed_chunks_quiet in H5 as [Hp5 _].
  2: { intros name. rewrite Hp5. unfold points_of at 1. cbn [db].
       fold (points_of w3 name). now rewrite Hp3, Hp1. }
  apply bind_inv in H as [(u'' & w6 & H6 & H)|(e6 & H6 & _)];
    [discriminate|].
  assert (Hdb : db w' = db w5).
  { unfold qdrant_upsert, qdrant_request in H6.
    destruct (qdrant_fault _); [now injection H6 as _ <-|]. cbn [db log] in H6.
    destruct (db w5 !! _) as [c|]; [destruct (forallb _ pts)|];
      try discriminate; now injection H6 as _ <-. }
  intros name. unfold points_of at 1. rewrite Hdb.
  fold (points_of w5 name). rewrite Hp5. unfold points_of at 1. cbn [db].
  fold (points_of w3 name). now rewrite Hp3, Hp1.
Qed.

(** The chunker of the route comes to an end. *)
Lemma route_chunker_ends text :
  exists fuel r, route_chunker fuel (Some text) route_opts = Some r.
Proof.
  unfold chunkTextByTokens.
  destruct (encoding_for_model _) as [enc|e]; [|exists 0%nat; eauto].
  destruct (encode enc _) as [tokens|e]; [|exists 0%nat; eauto].
  exists (S (length tokens)).
  apply loop_terminates; [vm_compute; split; congruence|cbn; lia|cbn; lia].
Qed.

(** X20. The embedding step of the upload route always comes to an end:
    its chunker runs with a window of 800 tokens and an overlap of 100.
    When it leaves a chunk count on the document, that count is the number
    of chunks of the text, and, unless there is no chunk, the step ended
    with one upsert of that many points, each with the document id and the
    file name in its payload. When it leaves no count, no point was
    written. *)
Theorem upload_embedding_step documentId text originalname w :
  exists fuel outcome w',
    route_step fuel documentId text originalname w = Some (outcome, w') /\
    match outcome with
    | Some n =>
        exists chunks,
          route_chunker fuel (Some text) route_opts = Some (Ok chunks) /\
          n = Z.of_nat (length chunks) /\
          (chunks = [] -> w' = w) /\
          (chunks <> [] ->
           exists pts,
             head (trace w') = Some (Upsert QDRANT_COLLECTION pts) /\
             length pts = length chunks /\
             forall p, In p pts ->
               payload p !! "documentId" = Some (JStr documentId) /\
               payload p !! "filename" = Some (JStr originalname))
    | None => forall name, points_of w' name = points_of w name
    end.
Proof.
  destruct (route_chunker_ends text) as (fuel & r & Hr).
  exists fuel. unfold embed_upload. rewrite Hr.
  destruct r as [chunks|e];
    [|eexists _, _; split; [reflexivity|intros name; reflexivity]].
  destruct (route_upsert documentId chunks _ w) as [[n|e] w'] eqn:Hup.
  2: { eexists _, _. split; [reflexivity|].
       intros name. eapply upsertChunks_throw_keeps_points, Hup. }
  eexists _, _. split; [reflexivity|]. exists chunks.
  split; [reflexivity|].
  destruct chunks as [|c0 rest].
  - unfold upsertChunks, ret in Hup. injection Hup as <- <-.
    split; [reflexivity|]. split; [reflexivity|congruence].
  - apply upsertChunks_ok in Hup as (pts & Htr & Hn & Hall & _); [|congruence].
    split; [exact Hn|]. split; [congruence|]. intros _.
    exists pts. split; [exact Htr|].
    split; [exact (Forall2_length _ _ _ Hall)|].
    intros p Hp. destruct (Forall2_In_left _ _ _ _ Hall Hp) as (c & _ & ->).
    split.
    + apply make_payload_documentId. now simplify_map_eq.
    + apply make_payload_override. now simplify_map_eq.
Qed.

End UploadRouteFacts.

(** ** Instances of the further properties *)

Lemma chunker_terminates_witness :
  exists fuel r,
    chunkTextByTokens char_encoding_for_model latin1_decode fuel (Some "abc")
      (tiny_opts 2 1) = Some r.
Proof.
  apply (chunker_terminates char_encoding_for_model latin1_decode (Some "abc")
           (tiny_opts 2 1)).
  vm_compute. reflexivity.
Defined.


Lemma chunker_covers_every_token_witness :
  exists (i : nat) c,
    [{| text := TArr ["ab"]; page := None; chunkIndex := 0 |};
     {| text := TArr ["bc"]; page := None; chunkIndex := 1 |}] !! i = Some c /\
    let a := Z.of_nat i * (chunkSize_of (tiny_opts 2 1) - overlap_of (tiny_opts 2 1)) in
    a <= 2 < a + chunkSize_of (tiny_opts 2 1).
Proof.
  apply (chunker_covers_every_token char_encoding_for_model latin1_decode 2
           (Some "abc") (tiny_opts 2 1) _ char_encoder [97; 98; 99] 2).
  - vm_compute. reflexivity.
  - reflexivity.
  - reflexivity.
  - reflexivity.
  - simpl. lia.
Defined.

Lemma chunker_no_tokens_witness :
  chunkTextByTokens char_encoding_for_model latin1_decode 1 (Some "")
    (tiny_opts 1 1) = Some (Ok []).
Proof.
  apply (chunker_no_tokens_no_chunks char_encoding_for_model latin1_decode 0
           (Some "") (tiny_opts 1 1) char_encoder).
  - reflexivity.
  - reflexivity.
Defined.

Lemma chunker_ends_iff_witness :
  (exists fuel r,
     chunkTextByTokens char_encoding_for_model latin1_decode fuel (Some "ab")
       (tiny_opts 1 1) = Some r) <->
  (overlap_of (tiny_opts 1 1) < chunkSize_of (tiny_opts 1 1) \/
   Z.of_nat (length [97; 98]) <= chunkSize_of (tiny_opts 1 1)).
Proof.
  apply (chunker_ends_iff char_encoding_for_model latin1_decode (Some "ab")
           (tiny_opts 1 1) char_encoder [97; 98]).
  - reflexivity.
  - reflexivity.
  - intros ts. eexists. reflexivity.
Defined.

Lemma upsertChunks_embeds_once_witness :
  embed_calls (trace world_A)
  = (embed_calls (trace empty_world) + length [chunk_of "a" 0; chunk_of "b" 1])%nat /\
  2 = Z.of_nat (length [chunk_of "a" 0; chunk_of "b" 1]).
Proof.
  apply (upsertChunks_embeds_each_chunk_once "pdf_chunks" steady_embed
           legacy_down count_uuid no_fault "A"
           [chunk_of "a" 0; chunk_of "b" 1] ∅ empty_world 2 world_A).
  vm_compute. reflexivity.
Defined.


Lemma ensureCollection_keeps_existing_witness :
  ensureCollection "pdf_chunks" no_fault (JNum 999) world_A
  = (Ok tt, log GetCollections
              {| trace := trace world_A; client := true; db := db world_A |}).
Proof.
  eapply (ensureCollection_keeps_existing "pdf_chunks" no_fault (JNum 999)
            world_A).
  - vm_compute. reflexivity.
  - reflexivity.
Defined.

Lemma search_creates_missing_collection_witness :
  exists w',
    search "pdf_chunks" steady_embed legacy_down no_fault unit_similarity
      "A" (TStr "q") None empty_world = (Ok [], w') /\
    db w' !! "pdf_chunks"
    = Some {| dimension := Z.of_nat (length [JNum 1; JNum 0]); points := [] |}.
Proof.
  apply (search_creates_missing_collection "pdf_chunks" steady_embed
           legacy_down no_fault unit_similarity "A" (TStr "q") None empty_world
           [JNum 1; JNum 0]
           (snd (getEmbedding steady_embed legacy_down (TStr "q") empty_world))).
  - vm_compute. reflexivity.
  - intros t. reflexivity.
  - vm_compute. reflexivity.
  - discriminate.
  - reflexivity.
Defined.

Lemma upsertChunks_payload_fields_witness :
  exists pts,
    head (trace world_A) = Some (Upsert "pdf_chunks" pts) /\
    Forall2 (fun p c =>
               payload p !! "documentId" = Some (JStr "A") /\
               payload p !! "text" = Some (text_json (text c)) /\
               payload p !! "page" = Some (page_json (page c)) /\
               payload p !! "chunkIndex" = Some (JNum (inject_Z (chunkIndex c))))
            pts [chunk_of "a" 0; chunk_of "b" 1].
Proof.
  apply (upsertChunks_payload_fields "pdf_chunks" steady_embed legacy_down
           count_uuid no_fault "A" [chunk_of "a" 0; chunk_of "b" 1] ∅
           empty_world 2 world_A).
  - discriminate.
  - vm_compute. reflexivity.
  - vm_compute. reflexivity.
  - vm_compute. reflexivity.
  - vm_compute. reflexivity.
  - vm_compute. reflexivity.
Defined.

Lemma findRelevantChunks_bounds_witness :
  Z.of_nat (length (findRelevantChunks two_sentences "cat dogs" (Some 1)))
  <= default 3 (Some 1) /\
  forall t, In t (findRelevantChunks two_sentences "cat dogs" (Some 1)) ->
    (11 <= String.length t)%nat /\
    exists s, In s (fragments two_sentences) /\ t = trim s.
Proof.
  apply (findRelevantChunks_bounds two_sentences "cat dogs" (Some 1)).
  simpl. lia.
Defined.

Lemma leading_space_witness :
  overlap_count ["cat"; "dogs"]%string (String " " "Dogs are running fast")
  = Z.of_nat (length ["cat"; "dogs"]%string).
Proof.
  apply (leading_space_gets_full_score ["cat"; "dogs"]%string " "%char
           "Dogs are running fast").
  reflexivity.
Defined.

Lemma failed_search_falls_back_witness :
  exists items,
    contextResults 3 "pdf_chunks" down_embed legacy_down no_fault
      unit_similarity "A" "cat dogs" two_sentences empty_world
    = (Ok items,
       snd (search "pdf_chunks" down_embed legacy_down no_fault
              unit_similarity "A" (TStr "cat dogs") (Some 3) empty_world)) /\
    Z.of_nat (length items) <= 3 /\
    forall c, In c items ->
      ctx_page c = JNull /\ ctx_score c = 1 # 2 /\
      exists s, In s (sentences two_sentences) /\ ctx_text c = JStr (trim s).
Proof.
  apply (failed_search_falls_back 3 "pdf_chunks" down_embed legacy_down
           no_fault unit_similarity "A" "cat dogs" two_sentences empty_world
           invalid_embedding).
  - lia.
  - vm_compute. reflexivity.
Defined.

Lemma stored_text_comes_back_witness :
  coerceToString stringify_stub number_stub
    (ctx_text (context_of_result result_of_chunk))
  = match text (chunk_of "a" 0) with
    | TStr s => s
    | TArr l => join " " l
    end.
Proof.
  apply (stored_text_comes_back stringify_stub number_stub "A"
           (chunk_of "a" 0) ∅ result_of_chunk).
  - vm_compute. reflexivity.
  - reflexivity.
Defined.

Lemma generation_request_witness :
  let results := [{| ctx_text := JStr "hello world"; ctx_page := JNull;
                     ctx_score := 1 # 2 |}] in
  let context := normalizedContext 3 5 stringify_stub number_stub results in
  Z.of_nat (length context) <= 3 /\
  (forall t, In t context -> 0 < Z.of_nat (String.length t) <= 5) /\
  Z.of_nat (length (messages 1 "why" context short_history)) <= 1 + 2 /\
  exists older recent first last,
    short_history = older ++ recent /\
    messages 1 "why" context short_history = first :: recent ++ [last] /\
    role first = "system"%string /\ role last = "user"%string.
Proof.
  apply (generation_request_is_bounded 3 5 1 stringify_stub number_stub
           [{| ctx_text := JStr "hello world"; ctx_page := JNull;
               ctx_score := 1 # 2 |}] "why" short_history); lia.
Defined.
